(** * The transport layer of py-amqp ([amqp/transport.py])

    A shallow embedding of the address parser [to_host_port], the socket
    option merge [_set_socket_options], the exact-size buffered read
    [_read] of both transports, the frame reader [read_frame], and the
    construction and TLS setup of [SSLTransport], followed by the
    properties of these functions.

    Conventions.
    - Python [bytes] are lists of [byte]; Python [int]s are [Z]; lengths
      and byte counts are [nat].
    - A call on a transport either returns or raises, leaving the
      transport and the socket in a new state, or never comes back (a
      blocking receive on a peer that stays silent): type [outcome].
    - The socket is external to the module.  Its receive side is the list
      of the results its successive [recv]/[read] calls give, its TCP
      option table is a function from option number to value, and its TLS
      layer is recorded when [wrap_socket] and [do_handshake] run. *)

From Stdlib Require Import ZArith Lia Strings.Byte Strings.Ascii.
From stdpp Require Import base list strings gmap.

(** ** Python values and exceptions *)

Abbreviation bytes := (list byte).

(** [EMPTY_BUFFER = bytes()] *)
Definition EMPTY_BUFFER : bytes := [].

(** The exception classes the module meets.  In Python 3 [socket.error]
    and [IOError] are [OSError]; [socket.timeout] and [ssl.SSLError] are
    subclasses of it.  [errno] is the [.errno] attribute ([None] when the
    exception was built from a message only) and [msg] is [str(exc)]. *)
Inductive exn : Type :=
| OSError (errno : option Z) (msg : string)
| SocketTimeout
| SSLError (errno : option Z) (msg : string)
| UnexpectedFrame (msg : string)
| AttributeError (attr : string)
| ValueError (literal : string)
| StructError
| TypeError
| KeyboardInterrupt.

(** Values of the [errno] module (Linux numbering). *)
Module errno.
Definition ENOENT : Z := 2.
Definition EINTR : Z := 4.
Definition EAGAIN : Z := 11.
Definition EWOULDBLOCK : Z := 11.
End errno.

(** [_UNAVAIL = {errno.EAGAIN, errno.EINTR, errno.ENOENT, errno.EWOULDBLOCK}] *)
Definition _UNAVAIL : list Z :=
  [errno.EAGAIN; errno.EINTR; errno.ENOENT; errno.EWOULDBLOCK].

(** [isinstance(exc, (OSError, IOError, SSLError, socket.error))] *)
Definition is_socket_error (exc : exn) : bool :=
  match exc with
  | OSError _ _ | SocketTimeout | SSLError _ _ => true
  | _ => false
  end.

(** [isinstance(exc, socket.timeout)] *)
Definition is_timeout (exc : exn) : bool :=
  match exc with SocketTimeout => true | _ => false end.

(** [isinstance(exc, SSLError)] *)
Definition is_SSLError (exc : exn) : bool :=
  match exc with SSLError _ _ => true | _ => false end.

(** [exc.errno] *)
Definition exn_errno (exc : exn) : option Z :=
  match exc with
  | OSError e _ | SSLError e _ => e
  | _ => None
  end.

(** [str(exc)] *)
Definition exn_str (exc : exn) : string :=
  match exc with
  | OSError _ m | SSLError _ m | UnexpectedFrame m
  | AttributeError m | ValueError m => m
  | SocketTimeout => "timed out"%string
  | StructError | TypeError | KeyboardInterrupt => ""%string
  end.

(** Modelled from the spec: [get_errno] of [amqp/utils.py], which is not
    among the sources.  The spec sorts errors by their OS error code
    (section 7); the helper reads the [.errno] attribute of the
    exception. *)
Definition get_errno (exc : exn) : option Z := exn_errno exc.

(** [e in errnos], where [e] may be [None] *)
Definition errno_in (e : option Z) (errnos : list Z) : bool :=
  match e with
  | Some z => bool_decide (z ∈ errnos)
  | None => false
  end.

(** [needle in haystack] on strings *)
Fixpoint str_contains (needle haystack : string) : bool :=
  String.prefix needle haystack ||
  match haystack with
  | EmptyString => false
  | String _ rest => str_contains needle rest
  end.

(** ** The socket, receive side *)

(** One call of the receive primitive: it hands over some bytes (none at
    all once the peer has shut down) or raises. *)
Inductive recv_result : Type :=
| Recv (s : bytes)
| RecvRaises (e : exn).

(** The results of the successive receive calls.  When the list is used
    up the next call blocks for ever.  The count a call asks for is not
    part of the model: a real socket is a list in which no chunk is longer
    than the count asked for when its turn comes, and the properties below
    are proved of every list. *)
Definition socket := list recv_result.

(** The bytes a socket still has to deliver. *)
Fixpoint pending (s : socket) : bytes :=
  match s with
  | [] => []
  | Recv c :: s' => c ++ pending s'
  | RecvRaises _ :: s' => pending s'
  end.

(** ** The transport object *)

Inductive transport_class : Type := cls_TCPTransport | cls_SSLTransport.

(** A Python object of the kinds passed as the [ssl] argument. *)
#[warnings="-register-all"]
Inductive pyobj : Type :=
| PyNone
| PyBool (b : bool)
| PyInt (z : Z)
| PyStr (s : string)
| PyDict (d : list (string * pyobj))
| PyObject (truthy : bool).

(** The attributes of a transport instance.  [sslopts] is [None] while the
    attribute has not been assigned. *)
Record transport : Type := mkTransport {
  cls : transport_class;
  connected : bool;
  raise_on_initial_eintr : bool;
  _read_buffer : bytes;
  host : string;
  port : option Z;
  connect_timeout : option Z;
  read_timeout : option Z;
  write_timeout : option Z;
  socket_settings : option (gmap Z Z);
  sslopts : option (list (string * pyobj))
}.

Definition set_read_buffer (b : bytes) (t : transport) : transport :=
  mkTransport (cls t) (connected t) (raise_on_initial_eintr t) b
    (host t) (port t) (connect_timeout t) (read_timeout t) (write_timeout t)
    (socket_settings t) (sslopts t).

Definition set_connected (c : bool) (t : transport) : transport :=
  mkTransport (cls t) c (raise_on_initial_eintr t) (_read_buffer t)
    (host t) (port t) (connect_timeout t) (read_timeout t) (write_timeout t)
    (socket_settings t) (sslopts t).

(** What a call on a transport does: it returns a value or raises, and
    leaves the transport and the socket in a new state, or it never comes
    back. *)
Inductive outcome (A : Type) : Type :=
| Returns (a : A) (self : transport) (sock : socket)
| Raises (e : exn) (self : transport) (sock : socket)
| Blocks.
Arguments Returns {A} a self sock.
Arguments Raises {A} e self sock.
Arguments Blocks {A}.

(** What a call without effect on a transport does: return or raise. *)
Inductive result (A : Type) : Type :=
| Ok (a : A)
| Error (e : exn).
Arguments Ok {A} a.
Arguments Error {A} e.

(** ** [to_host_port] *)

Definition AMQP_PORT : Z := 5672.

Definition is_digit (c : ascii) : bool :=
  let n := nat_of_ascii c in (48 <=? n)%nat && (n <=? 57)%nat.

(** The character class [[\.0-9a-f:]] of [IPV6_LITERAL]. *)
Definition is_literal_char (c : ascii) : bool :=
  let n := nat_of_ascii c in
  (n =? 46)%nat || is_digit c || ((97 <=? n)%nat && (n <=? 102)%nat)
  || (n =? 58)%nat.

(** The longest prefix of [s] whose characters satisfy [p], and the rest:
    a greedy [p+] or [p*] that nothing can make give characters back. *)
Fixpoint span (p : ascii -> bool) (s : string) : string * string :=
  match s with
  | EmptyString => (EmptyString, EmptyString)
  | String c rest =>
      if p c then let (a, b) := span p rest in (String c a, b)
      else (EmptyString, s)
  end.

(** [IPV6_LITERAL.match(host)] with
    [IPV6_LITERAL = re.compile(r'\[([\.0-9a-f:]+)\](?::(\d+))?')]: the
    groups 1 and 2 of the match at the start of [host], [None] when there
    is no match.  The closing bracket is not in the class of group 1, so
    the greedy class matches its longest run or nothing matches; the
    optional port group matches a colon and the longest run of digits, or
    is left out.  Host strings are ASCII text, on which [\d] is [0-9]. *)
Definition IPV6_LITERAL_match (host : string)
    : option (string * option string) :=
  match host with
  | String "["%char rest =>
      match span is_literal_char rest with
      | (EmptyString, _) => None
      | (group1, String "]"%char after) =>
          match after with
          | String ":"%char tail =>
              match span is_digit tail with
              | (EmptyString, _) => Some (group1, None)
              | (group2, _) => Some (group1, Some group2)
              end
          | _ => Some (group1, None)
          end
      | (_, _) => None
      end
  | _ => None
  end.

(** [sep in s] for a one-character [sep] *)
Fixpoint contains_char (sep : ascii) (s : string) : bool :=
  match s with
  | EmptyString => false
  | String c rest => Ascii.eqb c sep || contains_char sep rest
  end.

(** The two sides of the last [sep] of [s], if there is one. *)
Fixpoint split_last (sep : ascii) (s : string) : option (string * string) :=
  match s with
  | EmptyString => None
  | String c rest =>
      match split_last sep rest with
      | Some (a, b) => Some (String c a, b)
      | None => if Ascii.eqb c sep then Some (EmptyString, rest) else None
      end
  end.

(** [s.rsplit(sep, 1)] *)
Definition rsplit1 (sep : ascii) (s : string) : list string :=
  match split_last sep s with
  | Some (a, b) => [a; b]
  | None => [s]
  end.

(** The number a string of decimal digits writes, after the digits
    already read as [acc]. *)
Fixpoint decimal_from (acc : Z) (s : string) : Z :=
  match s with
  | EmptyString => acc
  | String c rest =>
      decimal_from (acc * 10 + (Z.of_nat (nat_of_ascii c) - 48))%Z rest
  end.

Definition decimal (s : string) : Z := decimal_from 0%Z s.

Fixpoint all_digits (s : string) : bool :=
  match s with
  | EmptyString => true
  | String c rest => is_digit c && all_digits rest
  end.

(** What the model asks of the builtin [int] on text: it reads a
    non-empty string of decimal digits as the number it writes.  ([None]
    stands for the [ValueError] of a string [int] rejects.) *)
Definition reads_decimal (int : string -> option Z) : Prop :=
  forall s, s <> EmptyString -> all_digits s = true -> int s = Some (decimal s).

(** [to_host_port(host, default=AMQP_PORT)].  The builtin [int] is a
    parameter.

<<
    port = None
    m = IPV6_LITERAL.match(host)
    if m:
        host = m.group(1)
        if m.group(2):
            port = int(m.group(2))
    else:
        if ':' in host:
            host, port = host.rsplit(':', 1)
            port = int(port)
    return host, port
>> *)
Definition to_host_port (int : string -> option Z) (host : string)
    (default : Z) : result (string * option Z) :=
  let port : option Z := None in
  match IPV6_LITERAL_match host with
  | Some (group1, group2) =>
      let host := group1 in
      match group2 with
      | Some digits =>
          match int digits with
          | Some p => Ok (host, Some p)
          | None => Error (ValueError digits)
          end
      | None => Ok (host, port)
      end
  | None =>
      if contains_char ":"%char host then
        match rsplit1 ":"%char host with
        | [host; port] =>
            match int port with
            | Some p => Ok (host, Some p)
            | None => Error (ValueError port)
            end
        | _ => Error (ValueError "not enough values to unpack"%string)
        end
      else Ok (host, port)
  end.

(** ** The socket, option table *)

(** The value of each option of level [SOL_TCP], by option number. *)
Definition sockopts : Type := Z -> Z.

(** [sock.getsockopt(SOL_TCP, opt)] *)
Definition getsockopt (opt : Z) (sock : sockopts) : Z := sock opt.

(** [sock.setsockopt(SOL_TCP, opt, val)] *)
Definition setsockopt (opt val : Z) (sock : sockopts) : sockopts :=
  fun k => if decide (k = opt) then val else sock k.

(** [KNOWN_TCP_OPTS] *)
Definition KNOWN_TCP_OPTS : list string :=
  ["TCP_CORK"; "TCP_DEFER_ACCEPT"; "TCP_KEEPCNT";
   "TCP_KEEPIDLE"; "TCP_KEEPINTVL"; "TCP_LINGER2";
   "TCP_MAXSEG"; "TCP_NODELAY"; "TCP_QUICKACK";
   "TCP_SYNCNT"; "TCP_WINDOW_CLAMP"]%string.

(** [TCP_OPTS = [getattr(socket, opt) for opt in KNOWN_TCP_OPTS
                 if hasattr(socket, opt)]], where [platform] gives the
    constants of the [socket] module by name; a name the platform lacks
    is absent from it. *)
Definition TCP_OPTS (platform : gmap string Z) : list Z :=
  omap (fun opt => platform !! opt) KNOWN_TCP_OPTS.

(** [d.setdefault(k, v)], as the dictionary it leaves *)
Definition dict_setdefault (k v : Z) (d : gmap Z Z) : gmap Z Z :=
  match d !! k with
  | Some _ => d
  | None => <[k := v]> d
  end.

(** [d.update(other)], as the dictionary it leaves *)
Definition dict_update (d other : gmap Z Z) : gmap Z Z := other ∪ d.

(** The truth value of the [socket_settings] argument: [None] and the
    empty dictionary are false. *)
Definition settings_given (socket_settings : option (gmap Z Z)) : bool :=
  match socket_settings with
  | Some d => negb (bool_decide (d = ∅))
  | None => false
  end.

(** An instance on which no [__init__] has run yet: [connected] is the
    class attribute [False] and [sslopts] does not exist; the record holds
    blanks for the attributes [__init__] is about to assign. *)
Definition object_new (c : transport_class) : transport :=
  mkTransport c false false [] EmptyString None None None None None None.

Definition set_sslopts (d : option (list (string * pyobj))) (t : transport)
    : transport :=
  mkTransport (cls t) (connected t) (raise_on_initial_eintr t) (_read_buffer t)
    (host t) (port t) (connect_timeout t) (read_timeout t) (write_timeout t)
    (socket_settings t) d.

Module _AbstractTransport.

(** [__init__(self, host, connect_timeout=None, read_timeout=None,
    write_timeout=None, socket_settings=None,
    raise_on_initial_eintr=False, **kwargs)] *)
Definition __init__ (int : string -> option Z) (self : transport)
    (host : string) (connect_timeout read_timeout write_timeout : option Z)
    (socket_settings : option (gmap Z Z)) (raise_on_initial_eintr : bool)
    : result transport :=
  match to_host_port int host AMQP_PORT with
  | Ok (h, p) =>
      Ok (mkTransport (cls self) true raise_on_initial_eintr EMPTY_BUFFER
            h p connect_timeout read_timeout write_timeout socket_settings
            (sslopts self))
  | Error e => Error e
  end.

(** [{opt: sock.getsockopt(SOL_TCP, opt) for opt in TCP_OPTS}] *)
Definition _get_tcp_socket_defaults (platform : gmap string Z)
    (sock : sockopts) : gmap Z Z :=
  foldl (fun d opt => <[opt := getsockopt opt sock]> d) ∅ (TCP_OPTS platform).

(** The dictionary [tcp_opts] that [_set_socket_options] applies when
    settings are given; reading [socket.TCP_NODELAY] is an
    [AttributeError] on a platform without it.

<<
    tcp_opts = self._get_tcp_socket_defaults(self.sock)
    tcp_opts.setdefault(socket.TCP_NODELAY, 1)
    tcp_opts.update(socket_settings)
>> *)
Definition merged_tcp_opts (platform : gmap string Z)
    (socket_settings : gmap Z Z) (sock : sockopts) : result (gmap Z Z) :=
  let tcp_opts := _get_tcp_socket_defaults platform sock in
  match platform !! "TCP_NODELAY"%string with
  | Some TCP_NODELAY =>
      let tcp_opts := dict_setdefault TCP_NODELAY 1 tcp_opts in
      Ok (dict_update tcp_opts socket_settings)
  | None => Error (AttributeError "TCP_NODELAY")
  end.

(** [_set_socket_options(self, socket_settings)]: the option table of
    the socket afterwards.

<<
    if not socket_settings:
        self.sock.setsockopt(SOL_TCP, socket.TCP_NODELAY, 1)
        return
    ...
    for opt, val in items(tcp_opts):
        self.sock.setsockopt(SOL_TCP, opt, val)
>> *)
Definition _set_socket_options (platform : gmap string Z)
    (socket_settings : option (gmap Z Z)) (sock : sockopts)
    : result sockopts :=
  if negb (settings_given socket_settings) then
    match platform !! "TCP_NODELAY"%string with
    | Some TCP_NODELAY => Ok (setsockopt TCP_NODELAY 1 sock)
    | None => Error (AttributeError "TCP_NODELAY")
    end
  else
    match merged_tcp_opts platform (default ∅ socket_settings) sock with
    | Ok tcp_opts =>
        Ok (foldl (fun s '(opt, val) => setsockopt opt val s) sock
              (map_to_list tcp_opts))
    | Error e => Error e
    end.

End _AbstractTransport.

(** ** The socket, TLS layer *)

(** A TLS session on the socket: how it was wrapped and whether the
    handshake has been done.  [tls_context] holds [check_hostname] and the
    arguments of [ssl.create_default_context] when the socket was wrapped
    through a context. *)
Record tls_session : Type := mkSession {
  tls_context : option (pyobj * list (string * pyobj));
  tls_options : list (string * pyobj);
  tls_handshake_done : bool
}.

(** What the [ssl] module and the peer will answer: the exception, if any,
    that wrapping the socket and the handshake raise. *)
Record tls_peer : Type := mkPeer {
  wrap_error : option exn;
  handshake_error : option exn
}.

(** [bool(x)] *)
Definition truthy (x : pyobj) : bool :=
  match x with
  | PyNone => false
  | PyBool b => b
  | PyInt z => negb (z =? 0)%Z
  | PyStr s => negb (String.eqb s EmptyString)
  | PyDict d => match d with [] => false | _ => true end
  | PyObject t => t
  end.

(** [isinstance(x, dict)] *)
Definition is_dict (x : pyobj) : bool :=
  match x with PyDict _ => true | _ => false end.

(** [d.get(k)] *)
Fixpoint dict_get (k : string) (d : list (string * pyobj)) : option pyobj :=
  match d with
  | [] => None
  | (k', v) :: d' => if String.eqb k' k then Some v else dict_get k d'
  end.

(** [d] without the key [k] *)
Definition dict_without (k : string) (d : list (string * pyobj))
    : list (string * pyobj) :=
  List.filter (fun kv => negb (String.eqb (fst kv) k)) d.

(** ** [_read]: read exactly [n] bytes *)

(** How the [while] loop of [_read] is left. *)
Inductive loop_exit : Type :=
| LoopDone
| LoopRaise (e : exn)
| LoopBlocks.

(** The loop of [TCPTransport._read] and [SSLTransport._read]; the two
    differ in [_errnos] only.  The match on the socket is the call
    [recv(n - len(rbuf))]: the primitive's next result is the head of the
    list.  The triple is the way the loop is left, the local [rbuf] and
    the socket at that point.

<<
    while len(rbuf) < n:
        try:
            s = recv(n - len(rbuf))
        except socket.error as exc:
            if exc.errno in _errnos:
                if initial and self.raise_on_initial_eintr:
                    raise
                continue
            raise
        if not s:
            raise IOError('Socket closed')
        rbuf += s
>> *)
Fixpoint read_loop (_errnos : list Z) (initial raise_flag : bool) (n : nat)
    (rbuf : bytes) (sock : socket) : loop_exit * bytes * socket :=
  if (length rbuf <? n)%nat then
    match sock with
    | [] => (LoopBlocks, rbuf, [])
    | RecvRaises exc :: sock' =>
        if is_socket_error exc then
          if errno_in (exn_errno exc) _errnos then
            if initial && raise_flag then (LoopRaise exc, rbuf, sock')
            else read_loop _errnos initial raise_flag n rbuf sock'
          else (LoopRaise exc, rbuf, sock')
        else (LoopRaise exc, rbuf, sock')
    | Recv s :: sock' =>
        match s with
        | [] => (LoopRaise (OSError None "Socket closed"%string), rbuf, sock')
        | _ => read_loop _errnos initial raise_flag n (rbuf ++ s) sock'
        end
    end
  else (LoopDone, rbuf, sock).

(** The body of [_read] around the loop: on any exception the local
    buffer is stored back before the exception goes on; on success the
    buffer is split at [n].

<<
    rbuf = self._read_buffer
    try:
        ...
    except:
        self._read_buffer = rbuf
        raise
    result, self._read_buffer = rbuf[:n], rbuf[n:]
    return result
>> *)
Definition read_exact (_errnos : list Z) (n : nat) (initial : bool)
    (self : transport) (sock : socket) : outcome bytes :=
  let rbuf := _read_buffer self in
  match read_loop _errnos initial (raise_on_initial_eintr self) n rbuf sock with
  | (LoopDone, rbuf, sock') =>
      Returns (take n rbuf) (set_read_buffer (drop n rbuf) self) sock'
  | (LoopRaise e, rbuf, sock') => Raises e (set_read_buffer rbuf self) sock'
  | (LoopBlocks, _, _) => Blocks
  end.

Module SSLTransport.

(** [__init__(self, host, connect_timeout=None, ssl=None, **kwargs)];
    the keyword arguments are those [_AbstractTransport.__init__] names.

<<
    if isinstance(ssl, dict):
        self.sslopts = ssl
    self._read_buffer = EMPTY_BUFFER
    super(SSLTransport, self).__init__(
        host, connect_timeout=connect_timeout, **kwargs)
>> *)
Definition __init__ (int : string -> option Z) (self : transport)
    (host : string) (connect_timeout : option Z) (ssl : pyobj)
    (read_timeout write_timeout : option Z)
    (socket_settings : option (gmap Z Z)) (raise_on_initial_eintr : bool)
    : result transport :=
  let self :=
    match ssl with
    | PyDict d => set_sslopts (Some d) self
    | _ => self
    end in
  let self := set_read_buffer EMPTY_BUFFER self in
  _AbstractTransport.__init__ int self host connect_timeout read_timeout
    write_timeout socket_settings raise_on_initial_eintr.

(** [ssl.wrap_socket(sock, **sslopts)] and [ctx.wrap_socket(sock,
    **sslopts)]: the session, unless wrapping raises. *)
Definition wrap (peer : tls_peer)
    (context : option (pyobj * list (string * pyobj)))
    (sslopts : list (string * pyobj)) : result tls_session :=
  match wrap_error peer with
  | Some e => Error e
  | None => Ok (mkSession context sslopts false)
  end.

(** [_wrap_context(self, sock, sslopts, check_hostname=None,
    **ctx_options)] *)
Definition _wrap_context (peer : tls_peer) (sslopts : list (string * pyobj))
    (context : list (string * pyobj)) : result tls_session :=
  let check_hostname := default PyNone (dict_get "check_hostname" context) in
  let ctx_options := dict_without "check_hostname" context in
  wrap peer (Some (check_hostname, ctx_options)) sslopts.

(** [_wrap_socket(self, sock, context=None, **sslopts)]; passing
    [**context] is a [TypeError] unless [context] is a mapping. *)
Definition _wrap_socket (peer : tls_peer) (kwargs : list (string * pyobj))
    : result tls_session :=
  let context := default PyNone (dict_get "context" kwargs) in
  let sslopts := dict_without "context" kwargs in
  if truthy context then
    match context with
    | PyDict ctx => _wrap_context peer sslopts ctx
    | _ => Error TypeError
    end
  else wrap peer None sslopts.

(** [_setup_transport(self)]: the exception raised, if any, and the TLS
    layer of the socket afterwards ([None]: a plain socket).

<<
    self.sock = self._wrap_socket(self.sock, **self.sslopts or {})
    self.sock.do_handshake()
    self._quick_recv = self.sock.read
>> *)
Definition _setup_transport (self : transport) (peer : tls_peer)
    (tls : option tls_session) : option exn * option tls_session :=
  match sslopts self with
  | None => (Some (AttributeError "sslopts"), tls)
  | Some opts =>
      let kwargs := match opts with [] => [] | _ => opts end in
      match _wrap_socket peer kwargs with
      | Error e => (Some e, tls)
      | Ok session =>
          match handshake_error peer with
          | Some e => (Some e, Some session)
          | None =>
              (None,
               Some (mkSession (tls_context session) (tls_options session)
                       true))
          end
      end
  end.

Definition _errnos : list Z := [errno.ENOENT; errno.EAGAIN; errno.EINTR].
Definition _read := read_exact _errnos.

End SSLTransport.

Module TCPTransport.

(** [_setup_transport(self)]; the two methods it binds are modelled by
    [_read] and the receive side of the socket.

<<
    self._write = self.sock.sendall
    self._read_buffer = EMPTY_BUFFER
    self._quick_recv = self.sock.recv
>> *)
Definition _setup_transport (self : transport) : transport :=
  set_read_buffer EMPTY_BUFFER self.

Definition _errnos : list Z := [errno.EAGAIN; errno.EINTR].
Definition _read := read_exact _errnos.

End TCPTransport.

(** [Transport(host, connect_timeout=None, ssl=False, **kwargs)]

<<
    transport = SSLTransport if ssl else TCPTransport
    return transport(host, connect_timeout=connect_timeout, ssl=ssl, **kwargs)
>> *)
Definition Transport (int : string -> option Z) (host : string)
    (connect_timeout : option Z) (ssl : pyobj)
    (read_timeout write_timeout : option Z)
    (socket_settings : option (gmap Z Z)) (raise_on_initial_eintr : bool)
    : result transport :=
  if truthy ssl then
    SSLTransport.__init__ int (object_new cls_SSLTransport) host
      connect_timeout ssl read_timeout write_timeout socket_settings
      raise_on_initial_eintr
  else
    _AbstractTransport.__init__ int (object_new cls_TCPTransport) host
      connect_timeout read_timeout write_timeout socket_settings
      raise_on_initial_eintr.

(** The [_errnos] default of the [_read] of a class. *)
Definition errnos_of (c : transport_class) : list Z :=
  match c with
  | cls_TCPTransport => TCPTransport._errnos
  | cls_SSLTransport => SSLTransport._errnos
  end.

(** [self._read], resolved by the class of the instance. *)
Definition _read (n : nat) (initial : bool) (self : transport) (sock : socket)
    : outcome bytes :=
  match cls self with
  | cls_TCPTransport => TCPTransport._read n initial self sock
  | cls_SSLTransport => SSLTransport._read n initial self sock
  end.

(** ** [read_frame] *)

(** The integer value of a byte. *)
Definition u8 (b : byte) : Z := Z.of_N (Byte.to_N b).

(** [struct.unpack('>BHI', frame_header)]: one unsigned byte, a big-endian
    unsigned 16-bit and a big-endian unsigned 32-bit integer; the call
    raises [struct.error] unless it is given exactly 7 bytes. *)
Definition unpack_BHI (b : bytes) : option (Z * Z * Z) :=
  match b with
  | [t; c1; c0; l3; l2; l1; l0] =>
      Some (u8 t,
            u8 c1 * 256 + u8 c0,
            ((u8 l3 * 256 + u8 l2) * 256 + u8 l1) * 256 + u8 l0)%Z
  | _ => None
  end.

(** [ord(s)]; a [TypeError] unless [s] has length one. *)
Definition ord (s : bytes) : option Z :=
  match s with
  | [b] => Some (u8 b)
  | _ => None
  end.

Definition hex_digit (d : Z) : ascii :=
  match String.get (Z.to_nat d) "0123456789abcdef"%string with
  | Some c => c
  | None => "?"%char
  end.

(** ['{0:#04x}'.format(ch)] for [0 <= ch < 256], the values [ord] of one
    byte takes: the prefix [0x] and two lower-case hexadecimal digits. *)
Definition format_04x (ch : Z) : string :=
  String.append "0x"
    (String (hex_digit (ch / 16)) (String (hex_digit (ch mod 16)) EmptyString)).

(** The message of the exception raised on a bad frame end. *)
Definition unexpected_frame_msg (ch : Z) : string :=
  String.append "Received "
    (String.append (format_04x ch) " while expecting 0xce").

(** The [try] block of [read_frame].  Besides the outcome it gives the
    local [read_frame_buffer] as it stands when the block is left, which
    the [socket.timeout] handler reads.

<<
    read_frame_buffer = EMPTY_BUFFER
    try:
        frame_header = read(7, True)
        read_frame_buffer += frame_header
        frame_type, channel, size = unpack('>BHI', frame_header)
        payload = read(size)
        read_frame_buffer += payload
        ch = ord(read(1))
>> *)
Definition read_frame_try (self : transport) (sock : socket)
    : bytes * outcome (Z * Z * bytes * Z) :=
  let read_frame_buffer := EMPTY_BUFFER in
  match _read 7 true self sock with
  | Returns frame_header self sock =>
      let read_frame_buffer := read_frame_buffer ++ frame_header in
      match unpack_BHI frame_header with
      | Some (frame_type, channel, size) =>
          match _read (Z.to_nat size) false self sock with
          | Returns payload self sock =>
              let read_frame_buffer := read_frame_buffer ++ payload in
              match _read 1 false self sock with
              | Returns last self sock =>
                  match ord last with
                  | Some ch =>
                      (read_frame_buffer,
                       Returns (frame_type, channel, payload, ch) self sock)
                  | None => (read_frame_buffer, Raises TypeError self sock)
                  end
              | Raises exc self sock => (read_frame_buffer, Raises exc self sock)
              | Blocks => (read_frame_buffer, Blocks)
              end
          | Raises exc self sock => (read_frame_buffer, Raises exc self sock)
          | Blocks => (read_frame_buffer, Blocks)
          end
      | None => (read_frame_buffer, Raises StructError self sock)
      end
  | Raises exc self sock => (read_frame_buffer, Raises exc self sock)
  | Blocks => (read_frame_buffer, Blocks)
  end.

(** [read_frame]: the [try] block, its two handlers and the check of the
    frame end.

<<
    except socket.timeout:
        self._read_buffer = read_frame_buffer + self._read_buffer
        raise
    except (OSError, IOError, SSLError, socket.error) as exc:
        if isinstance(exc, SSLError) and 'timed out' in str(exc):
            raise socket.timeout()
        if get_errno(exc) not in _UNAVAIL:
            self.connected = False
        raise
    if ch == 206:  # '\xce'
        return frame_type, channel, payload
    else:
        raise UnexpectedFrame(
            'Received {0:#04x} while expecting 0xce'.format(ch))
>> *)
Definition read_frame (self : transport) (sock : socket)
    : outcome (Z * Z * bytes) :=
  match read_frame_try self sock with
  | (_, Returns (frame_type, channel, payload, ch) self sock) =>
      if (ch =? 206)%Z then Returns (frame_type, channel, payload) self sock
      else Raises (UnexpectedFrame (unexpected_frame_msg ch)) self sock
  | (read_frame_buffer, Raises exc self sock) =>
      if is_timeout exc then
        Raises exc
          (set_read_buffer (read_frame_buffer ++ _read_buffer self) self) sock
      else if is_socket_error exc then
        if is_SSLError exc && str_contains "timed out"%string (exn_str exc) then
          Raises SocketTimeout self sock
        else if negb (errno_in (get_errno exc) _UNAVAIL) then
          Raises exc (set_connected false self) sock
        else Raises exc self sock
      else Raises exc self sock
  | (_, Blocks) => Blocks
  end.

(** ** The frame on the wire *)

(** The byte of value [z mod 256]. *)
Definition byte_of_Z (z : Z) : byte :=
  match Byte.of_N (Z.to_N (z mod 256)) with
  | Some b => b
  | None => x00
  end.

(** Modelled from the spec: the writer of frames, which is not among the
    sources.  Section 6: a 7-byte header (1-byte type, 2-byte big-endian
    channel, 4-byte big-endian payload length), the payload, and one
    trailer byte, [0xCE] in a well-formed frame. *)
Definition frame_header (frame_type channel size : Z) : bytes :=
  [byte_of_Z frame_type;
   byte_of_Z (channel / 2 ^ 8); byte_of_Z channel;
   byte_of_Z (size / 2 ^ 24); byte_of_Z (size / 2 ^ 16);
   byte_of_Z (size / 2 ^ 8); byte_of_Z size].

Definition frame_bytes (frame_type channel : Z) (payload : bytes)
    (trailer : byte) : bytes :=
  frame_header frame_type channel (Z.of_nat (length payload))
    ++ payload ++ [trailer].

Definition encode_frame (frame_type channel : Z) (payload : bytes) : bytes :=
  frame_bytes frame_type channel payload xce.

(** The length on the wire of the frame whose header starts [data];
    [None] while the header is not complete. *)
Definition frame_length (data : bytes) : option nat :=
  match unpack_BHI (take 7 data) with
  | Some (_, _, size) => Some (7 + Z.to_nat size + 1)
  | None => None
  end.

(** [data] stops before the end of the frame it starts. *)
Definition frame_incomplete (data : bytes) : bool :=
  match frame_length data with
  | Some len => (length data <? len)%nat
  | None => true
  end.

(** ** Transient errors of the receive primitive *)

(** An interrupted call or a try-again: a [socket.error] whose [errno] is
    [EINTR] or [EAGAIN]. *)
Definition is_transient (exc : exn) : bool :=
  is_socket_error exc
  && errno_in (exn_errno exc) [errno.EINTR; errno.EAGAIN].

(** The receive results without the transient errors. *)
Fixpoint without_transient (sock : socket) : socket :=
  match sock with
  | [] => []
  | RecvRaises exc :: sock' =>
      if is_transient exc then without_transient sock'
      else RecvRaises exc :: without_transient sock'
  | Recv s :: sock' => Recv s :: without_transient sock'
  end.

(** A receive result of a sequence in which data chunks and transient
    errors are interleaved: a chunk of at least one byte, or a transient
    error. *)
Definition chunk_or_transient (r : recv_result) : bool :=
  match r with
  | Recv [] => false
  | Recv (_ :: _) => true
  | RecvRaises exc => is_transient exc
  end.

(** An outcome with the rest of the socket seen through [f]. *)
Definition on_socket {A : Type} (f : socket -> socket) (o : outcome A)
    : outcome A :=
  match o with
  | Returns a self sock => Returns a self (f sock)
  | Raises e self sock => Raises e self (f sock)
  | Blocks => Blocks
  end.

(** The exception of [_read] on a peer that has shut down. *)
Definition socket_closed : exn := OSError None "Socket closed"%string.

(** A call of the receive primitive that makes every [_read] of the
    transport raise [e], whatever the size asked for. *)
Definition fails_with (self : transport) (ev : recv_result) (e : exn) : Prop :=
  forall n initial b sock,
    length b < n ->
    read_exact (errnos_of (cls self)) n initial (set_read_buffer b self)
      (ev :: sock)
    = Raises e (set_read_buffer b self) sock.

(** ** The merge of socket options, in the words of the spec *)

(** The dictionary section 4.2 describes: the current value of every
    known TCP option the platform has, overlaid with no-delay set to 1,
    then overlaid with the settings of the caller. *)
Definition spec_tcp_opts (platform : gmap string Z)
    (socket_settings : gmap Z Z) (sock : sockopts) : result (gmap Z Z) :=
  match platform !! "TCP_NODELAY"%string with
  | Some TCP_NODELAY =>
      Ok (socket_settings
          ∪ <[TCP_NODELAY := 1%Z]>
              (_AbstractTransport._get_tcp_socket_defaults platform sock))
  | None => Error (AttributeError "TCP_NODELAY")
  end.

(** ** Sample values *)

(** The TCP option constants of the [socket] module on Linux. *)
Definition linux_socket_module : gmap string Z :=
  list_to_map
    [("TCP_NODELAY", 1); ("TCP_MAXSEG", 2); ("TCP_CORK", 3);
     ("TCP_KEEPIDLE", 4); ("TCP_KEEPINTVL", 5); ("TCP_KEEPCNT", 6);
     ("TCP_SYNCNT", 7); ("TCP_LINGER2", 8); ("TCP_DEFER_ACCEPT", 9);
     ("TCP_WINDOW_CLAMP", 10); ("TCP_QUICKACK", 12)]%string%Z.

(** The option table of a socket just connected on Linux: Nagle's
    algorithm is on ([TCP_NODELAY] is 0), the segment size is 536, the
    keep-alive idle time 7200 s, its interval 75 s and its count 9. *)
Definition fresh_sockopts : sockopts :=
  fun opt =>
    (if decide (opt = 2) then 536
     else if decide (opt = 4) then 7200
     else if decide (opt = 5) then 75
     else if decide (opt = 6) then 9
     else 0)%Z.

(** [{socket.TCP_KEEPIDLE: 60}] *)
Definition keepidle_settings : gmap Z Z := {[ 4%Z := 60%Z ]}.

(** A connected transport for the broker at [broker:5672]. *)
Definition sample_transport (c : transport_class)
    (raise_on_initial_eintr : bool) (buffer : bytes) : transport :=
  mkTransport c true raise_on_initial_eintr buffer "broker" (Some 5672%Z)
    None None None None None.

(** The frame of type 1 on channel 2 with payload [abc], on the wire. *)
Definition sample_frame : bytes :=
  [x01; x00; x02; x00; x00; x00; x03; x61; x62; x63; xce].

(** An [int] that reads strings of decimal digits and nothing else. *)
Definition int_of_digits (s : string) : option Z :=
  match s with
  | EmptyString => None
  | _ => if all_digits s then Some (decimal s) else None
  end.

(** ** Predicates on strings *)

(** Every character of [s] satisfies [p]. *)
Fixpoint string_forall (p : ascii -> bool) (s : string) : bool :=
  match s with
  | EmptyString => true
  | String c rest => p c && string_forall p rest
  end.

(** The first character of [s], if any, satisfies [p]. *)
Definition starts_with (p : ascii -> bool) (s : string) : bool :=
  match s with
  | EmptyString => false
  | String c _ => p c
  end.

(** ** Calls on other sides of the socket *)

(** What a call does that works on a side [S] of the socket other than
    the receive side: as [outcome], with [S] for the socket. *)
Inductive effect (S A : Type) : Type :=
| Done (a : A) (self : transport) (sock : S)
| Fails (e : exn) (self : transport) (sock : S)
| Hangs.
Arguments Done {S A} a self sock.
Arguments Fails {S A} e self sock.
Arguments Hangs {S A}.

(** ** [having_timeout] *)

(** The block of a [with self.having_timeout(timeout):] statement, seen
    from the socket timeout ([sock.gettimeout()], [None] for a blocking
    socket): from the timeout at its start, how it ends and the timeout
    it leaves, or [None] when it never ends.  Timeouts are numbers
    compared for equality only; they are integers here. *)
Definition timed_block (A : Type) : Type :=
  option Z -> option (result A * option Z).

(** [with self.having_timeout(timeout): block]: how the statement ends
    and the timeout of the socket afterwards.

<<
    if timeout is None:
        yield self.sock
    else:
        sock = self.sock
        prev = sock.gettimeout()
        if prev != timeout:
            sock.settimeout(timeout)
        try:
            yield self.sock
        except SSLError as exc:
            if 'timed out' in str(exc):
                # http://bugs.python.org/issue10272
                raise socket.timeout()
            elif 'The operation did not complete' in str(exc):
                # Non-blocking SSL sockets can throw SSLError
                raise socket.timeout()
            raise
        finally:
            if timeout != prev:
                sock.settimeout(prev)
>> *)
Definition having_timeout {A : Type} (timeout : option Z)
    (block : timed_block A) (sock : option Z)
    : option (result A * option Z) :=
  match timeout with
  | None => block sock
  | Some _ =>
      let prev := sock in
      let sock := if decide (prev <> timeout) then timeout else sock in
      match block sock with
      | Some (r, sock) =>
          let r :=
            match r with
            | Error exc =>
                if is_SSLError exc then
                  if str_contains "timed out" (exn_str exc) then
                    Error SocketTimeout
                  else if str_contains "The operation did not complete"
                            (exn_str exc) then
                    Error SocketTimeout
                  else Error exc
                else Error exc
            | Ok a => Ok a
            end in
          let sock := if decide (timeout <> prev) then prev else sock in
          Some (r, sock)
      | None => None
      end
  end.

(** ** The socket, send side *)

(** One call of [sock.write] on a TLS socket: it takes the first [n] of
    the bytes it is given, or raises. *)
Inductive write_result : Type :=
| Wrote (n : nat)
| WriteRaises (e : exn).

(** The send side of a TLS socket: the bytes it has taken so far, and the
    results of the calls of [sock.write] to come.  When the list is used
    up the next call blocks for ever. *)
Record out_socket : Type := mkOut {
  out_taken : bytes;
  out_writes : list write_result
}.

(** The loop of [SSLTransport._write]: the way it is left, the bytes
    taken by then and the calls left.

<<
    while s:
        try:
            n = write(s)
        except (ValueError, AttributeError):
            # AG: sock._sslobj might become null in the meantime if the
            # remote connection has hung up. [...]
            n = 0
        if not n:
            raise IOError('Socket closed')
        s = s[n:]
>> *)
Fixpoint write_loop (s : bytes) (taken : bytes) (writes : list write_result)
    : loop_exit * bytes * list write_result :=
  match s with
  | [] => (LoopDone, taken, writes)
  | _ :: _ =>
      match writes with
      | [] => (LoopBlocks, taken, [])
      | WriteRaises exc :: writes' =>
          match exc with
          | ValueError _ | AttributeError _ =>
              (LoopRaise (OSError None "Socket closed"%string), taken, writes')
          | _ => (LoopRaise exc, taken, writes')
          end
      | Wrote n :: writes' =>
          match n with
          | 0 =>
              (LoopRaise (OSError None "Socket closed"%string), taken, writes')
          | _ => write_loop (drop n s) (taken ++ take n s) writes'
          end
      end
  end.

Module SSLTransportIO.

(** [SSLTransport._write(self, s)] *)
Definition _write (s : bytes) (self : transport) (sock : out_socket)
    : effect out_socket unit :=
  match write_loop s (out_taken sock) (out_writes sock) with
  | (LoopDone, taken, writes) => Done tt self (mkOut taken writes)
  | (LoopRaise exc, taken, writes) => Fails exc self (mkOut taken writes)
  | (LoopBlocks, _, _) => Hangs
  end.

End SSLTransportIO.

(** [_AbstractTransport.write(self, s)], for the [_write] of the class of
    [self].

<<
    try:
        self._write(s)
    except socket.timeout:
        raise
    except (OSError, IOError, socket.error) as exc:
        if get_errno(exc) not in _UNAVAIL:
            self.connected = False
        raise
>> *)
Definition write {S : Type}
    (_write : bytes -> transport -> S -> effect S unit)
    (s : bytes) (self : transport) (sock : S) : effect S unit :=
  match _write s self sock with
  | Done a self sock => Done a self sock
  | Fails exc self sock =>
      if is_timeout exc then Fails exc self sock
      else if is_socket_error exc then
        if negb (errno_in (get_errno exc) _UNAVAIL) then
          Fails exc (set_connected false self) sock
        else Fails exc self sock
      else Fails exc self sock
  | Hangs => Hangs
  end.

(** ** The socket, as the object held in [self.sock] *)

(** The calls that end the life of a socket. *)
Inductive sock_call : Type := CallUnwrap | CallShutdown | CallClose.

(** The socket object: whether it has an [unwrap] method (a TLS socket
    has, a plain one has not), and the exception, if any, that [unwrap],
    [shutdown] and [close] will raise on it. *)
Record sock_object : Type := mkSock {
  has_unwrap : bool;
  unwrap_error : option exn;
  shutdown_error : option exn;
  close_error : option exn
}.

(** The plain socket that [unwrap()] returns. *)
Definition unwrapped (so : sock_object) : sock_object :=
  mkSock false None (shutdown_error so) (close_error so).

(** [self._shutdown_transport()], by the class of [self]: the exception
    raised, if any, then [self.sock] and the calls made on sockets so
    far.  [_AbstractTransport._shutdown_transport], which [TCPTransport]
    keeps, does nothing; [SSLTransport] has

<<
    if self.sock is not None:
        try:
            unwrap = self.sock.unwrap
        except AttributeError:
            return
        self.sock = unwrap()
>> *)
Definition _shutdown_transport (self : transport) (sock : option sock_object)
    (calls : list sock_call)
    : option exn * option sock_object * list sock_call :=
  match cls self with
  | cls_TCPTransport => (None, sock, calls)
  | cls_SSLTransport =>
      match sock with
      | Some so =>
          if has_unwrap so then
            match unwrap_error so with
            | Some exc => (Some exc, sock, calls ++ [CallUnwrap])
            | None => (None, Some (unwrapped so), calls ++ [CallUnwrap])
            end
          else (None, sock, calls)
      | None => (None, sock, calls)
      end
  end.

(** [close(self)]: the exception raised, if any, the transport,
    [self.sock] and the calls made on sockets so far.

<<
    if self.sock is not None:
        self._shutdown_transport()
        # Call shutdown first to make sure that pending messages
        # reach the AMQP broker if the program exits after
        # calling this method.
        self.sock.shutdown(socket.SHUT_RDWR)
        self.sock.close()
        self.sock = None
    self.connected = False
>> *)
Definition close (self : transport) (sock : option sock_object)
    (calls : list sock_call)
    : option exn * transport * option sock_object * list sock_call :=
  match sock with
  | Some _ =>
      match _shutdown_transport self sock calls with
      | (Some exc, sock, calls) => (Some exc, self, sock, calls)
      | (None, sock, calls) =>
          match sock with
          | Some so =>
              let calls := calls ++ [CallShutdown] in
              match shutdown_error so with
              | Some exc => (Some exc, self, sock, calls)
              | None =>
                  let calls := calls ++ [CallClose] in
                  match close_error so with
                  | Some exc => (Some exc, self, sock, calls)
                  | None => (None, set_connected false self, None, calls)
                  end
              end
          | None => (Some (AttributeError "shutdown"), self, sock, calls)
          end
      end
  | None => (None, set_connected false self, None, calls)
  end.

(** ** [_connect] *)

(** One entry of [socket.getaddrinfo]: the exception, if any, that
    [socket.socket(af, socktype, proto)] raises for it, whether
    [set_cloexec] is implemented, and the exception, if any, that
    [sock.connect(sa)] raises. *)
Record candidate : Type := mkCandidate {
  create_error : option exn;
  cloexec_implemented : bool;
  connect_error : option exn
}.

(** What [_connect] does with sockets; a socket is named by the index of
    the entry it was created for. *)
Inductive connect_call : Type :=
| Created (i : nat)
| SetCloexec (i : nat)
| SetTimeout (i : nat) (timeout : option Z)
| ConnectTo (i : nat)
| Closed (i : nat).

(** The [try] block for entry [i]: the exception raised, if any, then
    [self.sock] and the calls made.

<<
    self.sock = socket.socket(af, socktype, proto)
    try:
        set_cloexec(self.sock, True)
    except NotImplementedError:
        pass
    self.sock.settimeout(timeout)
    self.sock.connect(sa)
>> *)
Definition connect_attempt (timeout : option Z) (i : nat) (res : candidate)
    (held : option nat) (calls : list connect_call)
    : option exn * option nat * list connect_call :=
  match create_error res with
  | Some exc => (Some exc, held, calls)
  | None =>
      (connect_error res, Some i,
       calls ++ [Created i]
         ++ (if cloexec_implemented res then [SetCloexec i] else [])
         ++ [SetTimeout i timeout; ConnectTo i])
  end.

(** The loop of [_connect] from entry [i] on.

<<
    for i, res in enumerate(entries):
        af, socktype, proto, canonname, sa = res
        try:
            ...
        except socket.error as exc:
            self.sock.close()
            self.sock = None
            if i + 1 >= len(entries):
                raise
        else:
            break
>> *)
Fixpoint connect_loop (timeout : option Z) (i : nat) (entries : list candidate)
    (held : option nat) (calls : list connect_call)
    : option exn * option nat * list connect_call :=
  match entries with
  | [] => (None, held, calls)
  | res :: entries' =>
      match connect_attempt timeout i res held calls with
      | (None, held, calls) => (None, held, calls)
      | (Some exc, held, calls) =>
          if is_socket_error exc then
            match held with
            | Some j =>
                let calls := calls ++ [Closed j] in
                match entries' with
                | [] => (Some exc, None, calls)
                | _ => connect_loop timeout (S i) entries' None calls
                end
            | None => (Some (AttributeError "close"), None, calls)
            end
          else (Some exc, held, calls)
      end
  end.

(** [_connect(self, host, port, timeout)], given what
    [socket.getaddrinfo(host, port, 0, socket.SOCK_STREAM, SOL_TCP)]
    returns or raises. *)
Definition _connect (getaddrinfo : result (list candidate))
    (timeout : option Z) (held : option nat) (calls : list connect_call)
    : option exn * option nat * list connect_call :=
  match getaddrinfo with
  | Ok entries => connect_loop timeout 0 entries held calls
  | Error exc => (Some exc, held, calls)
  end.

(** The calls [_connect] makes for entry [i] when connecting to it
    fails. *)
Definition failed_calls (timeout : option Z) (i : nat) (res : candidate)
    : list connect_call :=
  [Created i] ++ (if cloexec_implemented res then [SetCloexec i] else [])
    ++ [SetTimeout i timeout; ConnectTo i; Closed i].

(** The calls for the entries [i], [i + 1], ... when connecting fails for
    all of them. *)
Fixpoint all_failed_calls (timeout : option Z) (i : nat)
    (entries : list candidate) : list connect_call :=
  match entries with
  | [] => []
  | res :: entries' =>
      failed_calls timeout i res ++ all_failed_calls timeout (S i) entries'
  end.

(** The socket of the entry can be created, and connecting it fails with
    a [socket.error]. *)
Definition unreachable (res : candidate) : Prop :=
  create_error res = None
  /\ exists exc, connect_error res = Some exc /\ is_socket_error exc = true.

(** ** [_init_socket] *)

(** [AMQP_PROTOCOL_HEADER = 'AMQP\x01\x01\x00\x09'.encode('latin_1')] *)
Definition AMQP_PROTOCOL_HEADER : bytes :=
  [x41; x4d; x51; x50; x01; x01; x00; x09].

(** The connected socket as [_init_socket] sees it: its timeout ([None]
    for blocking mode), the options [SO_KEEPALIVE], [SO_SNDTIMEO] and
    [SO_RCVTIMEO] of level [SOL_SOCKET] (the last two as the pair of
    longs packed for them, [None] while they have not been set), the
    options of level [SOL_TCP], and the part [L] that the hooks of the
    class work on. *)
Record os_socket (L : Type) : Type := mkOS {
  so_timeout : option Z;
  so_keepalive : Z;
  so_sndtimeo : option (Z * Z);
  so_rcvtimeo : option (Z * Z);
  so_tcp : sockopts;
  so_layer : L
}.
Arguments mkOS {L} _ _ _ _ _ _.
Arguments so_timeout {L} _.
Arguments so_keepalive {L} _.
Arguments so_sndtimeo {L} _.
Arguments so_rcvtimeo {L} _.
Arguments so_tcp {L} _.
Arguments so_layer {L} _.

(** A timeout as the caller gives it: a number of seconds, an [int] or
    a [float] (of value [m * 2 ^ e]). *)
Inductive seconds : Type :=
| IntSeconds (t : Z)
| FloatSeconds (m e : Z).

(** [struct.pack('ll', interval, 0)] for an [interval] that is given: the
    two longs, or [struct.error] when [interval] is a [float] (the
    integer codes of Python 3's [struct] take no [float], whatever its
    value) or an [int] that is no C long (of 64 bits).  [Ok None] stands
    for an [interval] that is [None], for which nothing is packed or
    set. *)
Definition pack_timeout (interval : option seconds)
    : result (option (Z * Z)) :=
  match interval with
  | None => Ok None
  | Some (IntSeconds t) =>
      if ((- 2 ^ 63 <=? t) && (t <? 2 ^ 63))%Z then Ok (Some (t, 0%Z))
      else Error StructError
  | Some (FloatSeconds _ _) => Error StructError
  end.

(** The [try] block of [_init_socket], for the hooks [_setup_transport]
    and [_write] of the class of [self].

<<
    self.sock.settimeout(None)  # set socket back to blocking mode
    self.sock.setsockopt(socket.SOL_SOCKET, socket.SO_KEEPALIVE, 1)
    self._set_socket_options(socket_settings)

    # set socket timeouts
    for timeout, interval in ((socket.SO_SNDTIMEO, write_timeout),
                              (socket.SO_RCVTIMEO, read_timeout)):
        if interval is not None:
            self.sock.setsockopt(
                socket.SOL_SOCKET, timeout,
                struct.pack('ll', interval, 0),
            )
    self._setup_transport()

    self._write(AMQP_PROTOCOL_HEADER)
>> *)
Definition init_socket_try {L : Type} (platform : gmap string Z)
    (_setup_transport : transport -> L -> option exn * transport * L)
    (_write : bytes -> transport -> L -> effect L unit)
    (self : transport) (socket_settings : option (gmap Z Z))
    (read_timeout write_timeout : option seconds) (sock : os_socket L)
    : effect (os_socket L) unit :=
  let sock :=
    mkOS None 1%Z (so_sndtimeo sock) (so_rcvtimeo sock) (so_tcp sock)
      (so_layer sock) in
  match _AbstractTransport._set_socket_options platform socket_settings
          (so_tcp sock) with
  | Error exc => Fails exc self sock
  | Ok tcp =>
      let sock :=
        mkOS (so_timeout sock) (so_keepalive sock) (so_sndtimeo sock)
          (so_rcvtimeo sock) tcp (so_layer sock) in
      match pack_timeout write_timeout with
      | Error exc => Fails exc self sock
      | Ok snd =>
          let sock :=
            mkOS (so_timeout sock) (so_keepalive sock)
              (match snd with Some v => Some v | None => so_sndtimeo sock end)
              (so_rcvtimeo sock) (so_tcp sock) (so_layer sock) in
          match pack_timeout read_timeout with
          | Error exc => Fails exc self sock
          | Ok rcv =>
              let sock :=
                mkOS (so_timeout sock) (so_keepalive sock) (so_sndtimeo sock)
                  (match rcv with Some v => Some v | None => so_rcvtimeo sock end)
                  (so_tcp sock) (so_layer sock) in
              let with_layer layer :=
                mkOS (so_timeout sock) (so_keepalive sock) (so_sndtimeo sock)
                  (so_rcvtimeo sock) (so_tcp sock) layer in
              match _setup_transport self (so_layer sock) with
              | (Some exc, self, layer) => Fails exc self (with_layer layer)
              | (None, self, layer) =>
                  match _write AMQP_PROTOCOL_HEADER self layer with
                  | Done _ self layer => Done tt self (with_layer layer)
                  | Fails exc self layer => Fails exc self (with_layer layer)
                  | Hangs => Hangs
                  end
              end
          end
      end
  end.

(** [_init_socket(self, socket_settings, read_timeout, write_timeout)]:
    the [try] block and its handler.

<<
    except (OSError, IOError, socket.error) as exc:
        if get_errno(exc) not in _UNAVAIL:
            self.connected = False
        raise
>> *)
Definition _init_socket {L : Type} (platform : gmap string Z)
    (_setup_transport : transport -> L -> option exn * transport * L)
    (_write : bytes -> transport -> L -> effect L unit)
    (self : transport) (socket_settings : option (gmap Z Z))
    (read_timeout write_timeout : option seconds) (sock : os_socket L)
    : effect (os_socket L) unit :=
  match init_socket_try platform _setup_transport _write self socket_settings
          read_timeout write_timeout sock with
  | Fails exc self sock =>
      if is_socket_error exc then
        if negb (errno_in (get_errno exc) _UNAVAIL) then
          Fails exc (set_connected false self) sock
        else Fails exc self sock
      else Fails exc self sock
  | other => other
  end.

(** The hooks of [SSLTransport], on the TLS layer and the send side of
    the socket; [peer] tells what wrapping and the handshake will do. *)
Definition ssl_setup_hook (peer : tls_peer) (self : transport)
    (layer : option tls_session * out_socket)
    : option exn * transport * (option tls_session * out_socket) :=
  let '(exc, tls) := SSLTransport._setup_transport self peer (fst layer) in
  (exc, self, (tls, snd layer)).

Definition ssl_write_hook (s : bytes) (self : transport)
    (layer : option tls_session * out_socket)
    : effect (option tls_session * out_socket) unit :=
  match SSLTransportIO._write s self (snd layer) with
  | Done a self out => Done a self (fst layer, out)
  | Fails exc self out => Fails exc self (fst layer, out)
  | Hangs => Hangs
  end.

(** * Properties *)

(** ** The loop of [_read] *)

Section ReadLoop.

Variable errnos : list Z.
Variables initial raise_flag : bool.
Variable n : nat.

Lemma read_loop_enough (rbuf : bytes) (sock : socket) :
  n <= length rbuf ->
  read_loop errnos initial raise_flag n rbuf sock = (LoopDone, rbuf, sock).
Proof.
  intros Hn. destruct sock as [|[s|e] sock]; simpl;
    destruct (Nat.ltb_spec (length rbuf) n); trivial; lia.
Qed.

Lemma read_loop_recv (rbuf s : bytes) (sock : socket) :
  length rbuf < n -> s <> [] ->
  read_loop errnos initial raise_flag n rbuf (Recv s :: sock)
  = read_loop errnos initial raise_flag n (rbuf ++ s) sock.
Proof.
  intros Hn Hs. simpl.
  destruct (Nat.ltb_spec (length rbuf) n); [|lia].
  destruct s; [contradiction|reflexivity].
Qed.

Lemma read_loop_closed (rbuf : bytes) (sock : socket) :
  length rbuf < n ->
  read_loop errnos initial raise_flag n rbuf (Recv [] :: sock)
  = (LoopRaise socket_closed, rbuf, sock).
Proof.
  intros Hn. simpl. destruct (Nat.ltb_spec (length rbuf) n); [|lia].
  reflexivity.
Qed.

Lemma read_loop_retry (rbuf : bytes) (exc : exn) (sock : socket) :
  length rbuf < n ->
  is_socket_error exc = true -> errno_in (exn_errno exc) errnos = true ->
  initial && raise_flag = false ->
  read_loop errnos initial raise_flag n rbuf (RecvRaises exc :: sock)
  = read_loop errnos initial raise_flag n rbuf sock.
Proof.
  intros Hn Hs He Hi. simpl. destruct (Nat.ltb_spec (length rbuf) n); [|lia].
  rewrite Hs, He, Hi. reflexivity.
Qed.

Lemma read_loop_raise (rbuf : bytes) (exc : exn) (sock : socket) :
  length rbuf < n ->
  is_socket_error exc && errno_in (exn_errno exc) errnos
    && negb (initial && raise_flag) = false ->
  read_loop errnos initial raise_flag n rbuf (RecvRaises exc :: sock)
  = (LoopRaise exc, rbuf, sock).
Proof.
  intros Hn He. simpl. destruct (Nat.ltb_spec (length rbuf) n); [|lia].
  destruct (is_socket_error exc); [|reflexivity].
  destruct (errno_in (exn_errno exc) errnos); [|reflexivity].
  destruct (initial && raise_flag); [reflexivity|discriminate].
Qed.

(** The chunks that add up to what is missing are read one after the
    other. *)
Lemma read_loop_chunks (chunks : list bytes) (rbuf : bytes) (rest : socket) :
  Forall (fun c => c <> []) chunks ->
  length rbuf + length (concat chunks) = n ->
  read_loop errnos initial raise_flag n rbuf (map Recv chunks ++ rest)
  = (LoopDone, rbuf ++ concat chunks, rest).
Proof.
  intros Hne. revert rbuf.
  induction Hne as [|c chunks Hc _ IH]; intros rbuf Hlen.
  - simpl in *. rewrite app_nil_r. apply read_loop_enough. lia.
  - simpl concat in *. rewrite length_app in Hlen.
    assert (0 < length c) by (destruct c; [contradiction|simpl; lia]).
    change (map Recv (c :: chunks) ++ rest)
      with (Recv c :: (map Recv chunks ++ rest)).
    rewrite read_loop_recv by (trivial; lia).
    rewrite IH by (rewrite length_app; lia).
    by rewrite <- app_assoc.
Qed.

(** What the loop has taken from the socket is at the end of [rbuf], and
    nothing else has moved. *)
Lemma read_loop_conserves (sock : socket) (rbuf : bytes) ex rbuf' sock' :
  read_loop errnos initial raise_flag n rbuf sock = (ex, rbuf', sock') ->
  exists taken,
    sock = taken ++ sock' /\ rbuf' = rbuf ++ pending taken.
Proof.
  revert rbuf. induction sock as [|r sock IH]; intros rbuf; simpl.
  - destruct (length rbuf <? n)%nat; intros [= <- <- <-];
      exists []; simpl; by rewrite app_nil_r.
  - destruct (length rbuf <? n)%nat.
    2:{ intros [= <- <- <-]. exists []. simpl. by rewrite app_nil_r. }
    destruct r as [s|exc].
    + destruct s as [|b s].
      * intros [= <- <- <-]. exists [Recv []]. simpl. by rewrite app_nil_r.
      * intros H. apply IH in H as (taken & -> & ->).
        exists (Recv (b :: s) :: taken). split; [done|].
        simpl pending. by rewrite <- app_assoc.
    + destruct (is_socket_error exc);
        [destruct (errno_in (exn_errno exc) errnos);
         [destruct (initial && raise_flag)|]|];
        try (intros [= <- <- <-]; exists [RecvRaises exc]; simpl;
             by rewrite app_nil_r).
      intros H. apply IH in H as (taken & -> & ->).
      exists (RecvRaises exc :: taken). done.
Qed.

Lemma read_loop_done_length (sock : socket) (rbuf : bytes) rbuf' sock' :
  read_loop errnos initial raise_flag n rbuf sock = (LoopDone, rbuf', sock') ->
  n <= length rbuf'.
Proof.
  revert rbuf. induction sock as [|r sock IH]; intros rbuf; simpl.
  - destruct (Nat.ltb_spec (length rbuf) n); intros [= <-]; done.
  - destruct (Nat.ltb_spec (length rbuf) n).
    2:{ intros [= <- <-]. done. }
    destruct r as [s|exc].
    + destruct s; [discriminate|]. apply IH.
    + destruct (is_socket_error exc);
        [destruct (errno_in (exn_errno exc) errnos);
         [destruct (initial && raise_flag)|]|];
        try discriminate.
      apply IH.
Qed.

End ReadLoop.

(** ** [_read] *)

Lemma set_read_buffer_same (self : transport) :
  set_read_buffer (_read_buffer self) self = self.
Proof. by destruct self. Qed.

Lemma set_read_buffer_twice (b b' : bytes) (self : transport) :
  set_read_buffer b (set_read_buffer b' self) = set_read_buffer b self.
Proof. reflexivity. Qed.

Lemma read_unfold (n : nat) (initial : bool) (self : transport) (sock : socket) :
  _read n initial self sock
  = read_exact (errnos_of (cls self)) n initial self sock.
Proof. unfold _read. by destruct (cls self). Qed.

Section ReadExact.

Variable errnos : list Z.
Variable n : nat.
Variable initial : bool.

Lemma read_exact_enough (self : transport) (sock : socket) :
  n <= length (_read_buffer self) ->
  read_exact errnos n initial self sock
  = Returns (take n (_read_buffer self))
      (set_read_buffer (drop n (_read_buffer self)) self) sock.
Proof. intros H. unfold read_exact. by rewrite read_loop_enough. Qed.

Lemma read_exact_recv (self : transport) (s : bytes) (sock : socket) :
  length (_read_buffer self) < n -> s <> [] ->
  read_exact errnos n initial self (Recv s :: sock)
  = read_exact errnos n initial
      (set_read_buffer (_read_buffer self ++ s) self) sock.
Proof. intros Hn Hs. unfold read_exact. by rewrite read_loop_recv. Qed.

Lemma read_exact_closed (self : transport) (sock : socket) :
  length (_read_buffer self) < n ->
  read_exact errnos n initial self (Recv [] :: sock)
  = Raises socket_closed self sock.
Proof.
  intros Hn. unfold read_exact. rewrite read_loop_closed by done.
  by rewrite set_read_buffer_same.
Qed.

Lemma read_exact_retry (self : transport) (exc : exn) (sock : socket) :
  length (_read_buffer self) < n ->
  is_socket_error exc = true -> errno_in (exn_errno exc) errnos = true ->
  initial && raise_on_initial_eintr self = false ->
  read_exact errnos n initial self (RecvRaises exc :: sock)
  = read_exact errnos n initial self sock.
Proof. intros. unfold read_exact. by rewrite read_loop_retry. Qed.

Lemma read_exact_raise (self : transport) (exc : exn) (sock : socket) :
  length (_read_buffer self) < n ->
  is_socket_error exc && errno_in (exn_errno exc) errnos
    && negb (initial && raise_on_initial_eintr self) = false ->
  read_exact errnos n initial self (RecvRaises exc :: sock)
  = Raises exc self sock.
Proof.
  intros. unfold read_exact. rewrite read_loop_raise by done.
  by rewrite set_read_buffer_same.
Qed.

(** Chunks that stay short of [n] all go to the buffer. *)
Lemma read_exact_absorb (chunks : list bytes) (self : transport) (sock : socket) :
  Forall (fun c => c <> []) chunks ->
  length (_read_buffer self) + length (concat chunks) < n ->
  read_exact errnos n initial self (map Recv chunks ++ sock)
  = read_exact errnos n initial
      (set_read_buffer (_read_buffer self ++ concat chunks) self) sock.
Proof.
  intros Hne. revert self.
  induction Hne as [|c chunks Hc _ IH]; intros self Hlen; simpl in *.
  - by rewrite app_nil_r, set_read_buffer_same.
  - rewrite length_app in Hlen.
    rewrite read_exact_recv by (trivial; lia).
    rewrite IH by (simpl; rewrite length_app; lia).
    simpl. by rewrite <- app_assoc.
Qed.

Lemma read_exact_returns (self : transport) (sock : socket) r self' sock' :
  read_exact errnos n initial self sock = Returns r self' sock' ->
  length r = n /\
  exists taken,
    sock = taken ++ sock' /\
    r = take n (_read_buffer self ++ pending taken) /\
    self' = set_read_buffer (drop n (_read_buffer self ++ pending taken)) self.
Proof.
  unfold read_exact.
  destruct (read_loop errnos initial (raise_on_initial_eintr self) n
              (_read_buffer self) sock) as [[ex rbuf] s] eqn:Hloop.
  destruct ex; try discriminate. intros [= <- <- <-].
  pose proof (read_loop_done_length _ _ _ _ _ _ _ _ Hloop) as Hlen.
  apply read_loop_conserves in Hloop as (taken & -> & ->).
  split; [rewrite length_take; lia|]. by exists taken.
Qed.

Lemma read_exact_raises (self : transport) (sock : socket) e self' sock' :
  read_exact errnos n initial self sock = Raises e self' sock' ->
  exists taken,
    sock = taken ++ sock' /\
    self' = set_read_buffer (_read_buffer self ++ pending taken) self.
Proof.
  unfold read_exact.
  destruct (read_loop errnos initial (raise_on_initial_eintr self) n
              (_read_buffer self) sock) as [[ex rbuf] s] eqn:Hloop.
  destruct ex; try discriminate. intros [= <- <- <-].
  apply read_loop_conserves in Hloop as (taken & -> & ->). by exists taken.
Qed.

End ReadExact.

(** C1.  Exact-size buffered read, for both transports.  When the
    receive primitive hands over chunks of at least one byte each that
    add up to exactly [n] bytes, [_read(n)] on an empty buffer returns
    these [n] bytes in the order of arrival and leaves the buffer empty.
    (Each such chunk is at most what was still asked for, since the
    chunks add up to [n].)  And whenever [_read(n)] returns, it returns
    exactly [n] bytes: the first [n] of the buffer followed by what it
    took from the socket; the bytes after them are kept for the next
    call. *)
Theorem read_returns_exactly_n (n : nat) (initial : bool) (self : transport)
    (sock : socket) :
  (forall (chunks : list bytes) (rest : socket),
     _read_buffer self = [] ->
     Forall (fun c => 1 <= length c) chunks ->
     length (concat chunks) = n ->
     sock = map Recv chunks ++ rest ->
     _read n initial self sock = Returns (concat chunks) self rest)
  /\
  (forall r self' sock',
     _read n initial self sock = Returns r self' sock' ->
     length r = n /\
     exists taken,
       sock = taken ++ sock' /\
       r = take n (_read_buffer self ++ pending taken) /\
       _read_buffer self' = drop n (_read_buffer self ++ pending taken) /\
       self' = set_read_buffer (_read_buffer self') self).
Proof.
  split.
  - intros chunks rest Hbuf Hne Hlen ->. rewrite read_unfold.
    unfold read_exact. rewrite Hbuf.
    rewrite read_loop_chunks; [|
      eapply Forall_impl; [exact Hne|intros [|] ?; simpl in *; [lia|done]] |
      simpl; lia].
    simpl "++". rewrite <- Hlen, firstn_all, drop_all.
    f_equal. rewrite <- Hbuf. apply set_read_buffer_same.
  - intros r self' sock'. rewrite read_unfold. intros H.
    apply read_exact_returns in H as (Hlen & taken & -> & -> & ->).
    split; [done|]. exists taken. done.
Qed.

(** ** The frame header *)

Lemma u8_byte_of_Z (z : Z) : u8 (byte_of_Z z) = (z mod 256)%Z.
Proof.
  unfold u8, byte_of_Z.
  assert (0 <= z mod 256 < 256)%Z as Hr by (apply Z.mod_pos_bound; lia).
  destruct (Byte.of_N (Z.to_N (z mod 256))) as [b|] eqn:Hb.
  - apply Byte.to_of_N in Hb. rewrite Hb. lia.
  - apply Byte.of_N_None_iff in Hb. lia.
Qed.

Lemma u8_range (b : byte) : (0 <= u8 b < 256)%Z.
Proof. unfold u8. pose proof (Byte.to_N_bounded b). lia. Qed.

Lemma unpack_frame_header (frame_type channel size : Z) :
  (0 <= frame_type < 2 ^ 8)%Z -> (0 <= channel < 2 ^ 16)%Z ->
  (0 <= size < 2 ^ 32)%Z ->
  unpack_BHI (frame_header frame_type channel size)
  = Some (frame_type, channel, size).
Proof.
  intros Ht Hc Hs. unfold frame_header, unpack_BHI.
  rewrite !u8_byte_of_Z. do 3 f_equal.
  - apply Z.mod_small. lia.
  - change (2 ^ 8)%Z with 256%Z. Z.div_mod_to_equations. lia.
  - change (2 ^ 8)%Z with 256%Z. change (2 ^ 16)%Z with 65536%Z.
    change (2 ^ 24)%Z with 16777216%Z. Z.div_mod_to_equations. lia.
Qed.

Lemma unpack_BHI_length (b : bytes) :
  length b = 7 ->
  exists t c size, unpack_BHI b = Some (t, c, size) /\ (0 <= size)%Z.
Proof.
  intros H. do 8 (destruct b as [|? b]; try discriminate).
  eexists _, _, _. split; [reflexivity|].
  pose proof (u8_range b3). pose proof (u8_range b4).
  pose proof (u8_range b5). pose proof (u8_range b6). lia.
Qed.

Lemma unpack_BHI_short (b : bytes) : length b < 7 -> unpack_BHI b = None.
Proof.
  intros H. do 7 (destruct b as [|? b]; [reflexivity|]). simpl in H. lia.
Qed.

Lemma frame_incomplete_short (data : bytes) :
  length data < 7 -> frame_incomplete data = true.
Proof.
  intros H. unfold frame_incomplete, frame_length.
  rewrite unpack_BHI_short; [done|]. rewrite length_take. lia.
Qed.

Lemma frame_incomplete_header (data : bytes) t c size :
  7 <= length data -> unpack_BHI (take 7 data) = Some (t, c, size) ->
  frame_incomplete data = (length data <? 7 + Z.to_nat size + 1)%nat.
Proof. intros _ H. unfold frame_incomplete, frame_length. by rewrite H. Qed.

(** A frame cut short is incomplete. *)
Lemma frame_incomplete_app (a b : bytes) :
  frame_incomplete (a ++ b) = true -> frame_incomplete a = true.
Proof.
  intros H. destruct (Nat.lt_ge_cases (length a) 7) as [Hs|Hl].
  - by apply frame_incomplete_short.
  - destruct (unpack_BHI_length (take 7 a)) as (t & c & size & Hu & _).
    { rewrite length_take. lia. }
    rewrite (frame_incomplete_header _ t c size) in H.
    + rewrite (frame_incomplete_header _ t c size) by done.
      apply Nat.ltb_lt in H. apply Nat.ltb_lt. rewrite length_app in H. lia.
    + rewrite length_app. lia.
    + by rewrite take_app_le.
Qed.

Lemma frame_bytes_length t c p x : length (frame_bytes t c p x) = 7 + length p + 1.
Proof. unfold frame_bytes. rewrite !length_app. simpl. lia. Qed.

Lemma frame_bytes_prefix_incomplete t c p x (a b : bytes) :
  (0 <= t < 2 ^ 8)%Z -> (0 <= c < 2 ^ 16)%Z ->
  (Z.of_nat (length p) < 2 ^ 32)%Z ->
  frame_bytes t c p x = a ++ b -> b <> [] ->
  frame_incomplete a = true.
Proof.
  intros Ht Hc Hp Heq Hb.
  assert (length a < 7 + length p + 1) as Hlen.
  { rewrite <- (frame_bytes_length t c p x), Heq, length_app.
    destruct b; [done|simpl; lia]. }
  destruct (Nat.lt_ge_cases (length a) 7) as [Hs|Hl].
  - by apply frame_incomplete_short.
  - assert (take 7 a = frame_header t c (Z.of_nat (length p))) as Hh.
    { rewrite <- (take_app_le a b) by done. rewrite <- Heq.
      unfold frame_bytes. by rewrite take_app_length'. }
    rewrite (frame_incomplete_header _ t c (Z.of_nat (length p))); [|done|].
    + apply Nat.ltb_lt. lia.
    + rewrite Hh. apply unpack_frame_header; lia.
Qed.

(** ** The [try] block of [read_frame] *)

(** While the buffer holds an incomplete frame, a chunk handed over by the
    socket has the effect it would have had in the buffer from the
    start. *)
Lemma read_frame_try_recv (self : transport) (s : bytes) (sock : socket) :
  s <> [] -> frame_incomplete (_read_buffer self) = true ->
  read_frame_try self (Recv s :: sock)
  = read_frame_try (set_read_buffer (_read_buffer self ++ s) self) sock.
Proof.
  intros Hs Hinc. unfold read_frame_try. rewrite !read_unfold. simpl cls.
  set (E := errnos_of (cls self)). cbv zeta.
  destruct (Nat.lt_ge_cases (length (_read_buffer self)) 7) as [Hshort|Hlong].
  { by rewrite read_exact_recv. }
  rewrite !read_exact_enough by (simpl; rewrite ?length_app; lia).
  simpl _read_buffer. rewrite take_app_le, drop_app_le by done.
  cbv beta iota.
  destruct (unpack_BHI_length (take 7 (_read_buffer self)))
    as (t & c & size & Hu & Hsz).
  { rewrite length_take. lia. }
  rewrite Hu. rewrite (frame_incomplete_header _ t c size) in Hinc by done.
  apply Nat.ltb_lt in Hinc.
  rewrite !read_unfold. simpl cls. fold E.
  assert (length (drop 7 (_read_buffer self)) = length (_read_buffer self) - 7)
    as Hd by apply length_drop.
  destruct (Nat.lt_ge_cases (length (drop 7 (_read_buffer self)))
              (Z.to_nat size)) as [Hpay|Hpay].
  { rewrite read_exact_recv by (simpl; done). reflexivity. }
  rewrite !read_exact_enough by (simpl; rewrite ?length_app; lia).
  simpl _read_buffer. rewrite take_app_le, drop_app_le by done.
  cbv beta iota.
  rewrite !read_unfold. simpl cls. fold E.
  rewrite read_exact_recv; [reflexivity| |done].
  simpl. rewrite length_drop. lia.
Qed.

(** Chunks that leave the frame incomplete all go to the buffer. *)
Lemma read_frame_try_absorb (chunks : list bytes) (self : transport)
    (sock : socket) :
  Forall (fun c => c <> []) chunks ->
  frame_incomplete (_read_buffer self ++ concat chunks) = true ->
  read_frame_try self (map Recv chunks ++ sock)
  = read_frame_try (set_read_buffer (_read_buffer self ++ concat chunks) self)
      sock.
Proof.
  intros Hne. revert self.
  induction Hne as [|c chunks Hc _ IH]; intros self Hinc; simpl in *.
  - by rewrite app_nil_r, set_read_buffer_same.
  - rewrite read_frame_try_recv; [|done|].
    + rewrite IH; simpl; rewrite <- app_assoc; done.
    + eapply frame_incomplete_app. eassumption.
Qed.

(** The same when the last chunk completes the frame, or goes beyond. *)
Lemma read_frame_try_chunks (chunks : list bytes) (last : bytes)
    (self : transport) (sock : socket) :
  Forall (fun c => c <> []) chunks -> last <> [] ->
  frame_incomplete (_read_buffer self ++ concat chunks) = true ->
  read_frame_try self (map Recv (chunks ++ [last]) ++ sock)
  = read_frame_try
      (set_read_buffer (_read_buffer self ++ concat (chunks ++ [last])) self)
      sock.
Proof.
  intros Hne Hlast Hinc.
  rewrite map_app, <- app_assoc. rewrite read_frame_try_absorb by done.
  simpl. rewrite read_frame_try_recv by done.
  simpl. rewrite concat_app. simpl. by rewrite app_nil_r, app_assoc.
Qed.

(** A whole frame in the buffer is taken from it without a call of the
    receive primitive. *)
Lemma read_frame_try_buffered (self : transport) (sock : socket)
    t c p x (more : bytes) :
  (0 <= t < 2 ^ 8)%Z -> (0 <= c < 2 ^ 16)%Z ->
  (Z.of_nat (length p) < 2 ^ 32)%Z ->
  _read_buffer self = frame_bytes t c p x ++ more ->
  read_frame_try self sock
  = (frame_header t c (Z.of_nat (length p)) ++ p,
     Returns (t, c, p, u8 x) (set_read_buffer more self) sock).
Proof.
  intros Ht Hc Hp Hbuf. unfold read_frame_try. rewrite !read_unfold.
  set (E := errnos_of (cls self)). cbv zeta.
  unfold frame_bytes in Hbuf. rewrite <- !app_assoc in Hbuf.
  rewrite read_exact_enough by (rewrite Hbuf, length_app; simpl; lia).
  rewrite Hbuf. rewrite take_app_length', drop_app_length' by done.
  rewrite unpack_frame_header by lia.
  rewrite !read_unfold. simpl cls. fold E. rewrite Nat2Z.id.
  rewrite read_exact_enough by (simpl; rewrite length_app; lia).
  simpl _read_buffer. rewrite take_app_length, drop_app_length.
  rewrite !read_unfold. simpl cls. fold E.
  rewrite read_exact_enough by (simpl; lia).
  reflexivity.
Qed.

(** ** [read_frame] on whole frames *)

Lemma nonempty_of_length (chunks : list bytes) :
  Forall (fun c => 1 <= length c) chunks -> Forall (fun c => c <> []) chunks.
Proof.
  intros H. eapply Forall_impl; [exact H|].
  intros [|] ?; simpl in *; [lia|done].
Qed.

(** The frame that arrives in chunks is read as if it stood in the
    buffer. *)
Lemma read_frame_try_frame (self : transport) (chunks : list bytes)
    (rest : socket) t c p x :
  (0 <= t < 2 ^ 8)%Z -> (0 <= c < 2 ^ 16)%Z ->
  (Z.of_nat (length p) < 2 ^ 32)%Z ->
  _read_buffer self = [] ->
  Forall (fun c => 1 <= length c) chunks ->
  concat chunks = frame_bytes t c p x ->
  read_frame_try self (map Recv chunks ++ rest)
  = (frame_header t c (Z.of_nat (length p)) ++ p,
     Returns (t, c, p, u8 x) self rest).
Proof.
  intros Ht Hc Hp Hbuf Hne Hcat. apply nonempty_of_length in Hne.
  destruct chunks as [|c0 chunks] using rev_ind.
  { simpl in Hcat. pose proof (frame_bytes_length t c p x) as Hl.
    rewrite <- Hcat in Hl. simpl in Hl. lia. }
  clear IHchunks. apply Forall_app in Hne as [Hne Hlast].
  apply (proj1 (Forall_singleton _ _)) in Hlast.
  rewrite concat_app in Hcat. simpl in Hcat. rewrite app_nil_r in Hcat.
  rewrite read_frame_try_chunks; [|done|done|].
  - rewrite (read_frame_try_buffered _ _ t c p x []); try done.
    + do 2 f_equal. destruct self; simpl in *; by subst.
    + simpl. rewrite Hbuf, concat_app. simpl. by rewrite !app_nil_r.
  - rewrite Hbuf. simpl.
    by apply (frame_bytes_prefix_incomplete t c p x _ c0).
Qed.

Lemma u8_inj (a b : byte) : u8 a = u8 b -> a = b.
Proof.
  unfold u8. intros H. apply N2Z.inj in H.
  pose proof (Byte.of_to_N a) as Ha. rewrite H, Byte.of_to_N in Ha.
  congruence.
Qed.

Lemma hex_digit_inj (a b : Z) :
  (0 <= a < 16)%Z -> (0 <= b < 16)%Z -> hex_digit a = hex_digit b -> a = b.
Proof.
  intros Ha Hb.
  assert (Hn : forall z, (0 <= z < 16)%Z ->
            exists k, (k < 16)%nat /\ z = Z.of_nat k).
  { intros z Hz. exists (Z.to_nat z). lia. }
  destruct (Hn a Ha) as (i & Hi & ->). destruct (Hn b Hb) as (j & Hj & ->).
  clear Hn Ha Hb. intros H. f_equal. revert H.
  do 16 (destruct i as [|i]; [
    do 16 (destruct j as [|j]; [try reflexivity; discriminate|]); lia |]).
  lia.
Qed.

(** The message of [UnexpectedFrame] tells the byte met. *)
Lemma unexpected_frame_msg_inj (a b : byte) :
  unexpected_frame_msg (u8 a) = unexpected_frame_msg (u8 b) -> a = b.
Proof.
  unfold unexpected_frame_msg, format_04x. simpl. intros [= H1 H2].
  pose proof (u8_range a). pose proof (u8_range b).
  apply hex_digit_inj in H1; [|Z.div_mod_to_equations; lia..].
  apply hex_digit_inj in H2; [|Z.div_mod_to_equations; lia..].
  apply u8_inj. Z.div_mod_to_equations. lia.
Qed.

(** C2.  Frame round trip.  The wire form of a frame of type [t < 2^8],
    channel [c < 2^16] and payload [p] shorter than [2^32] (one byte of
    type, the channel and the payload length big-endian on 2 and 4 bytes,
    the payload, the byte [0xCE]) is read back by [read_frame] as
    [(t, c, p)], however the receive primitive cuts it into chunks of at
    least one byte; nothing is left in the buffer and the socket is read
    no further than the frame. *)
Theorem read_frame_round_trip (t c : Z) (p : bytes) (self : transport)
    (chunks : list bytes) (rest : socket) :
  (0 <= t < 2 ^ 8)%Z -> (0 <= c < 2 ^ 16)%Z ->
  (Z.of_nat (length p) < 2 ^ 32)%Z ->
  _read_buffer self = [] ->
  Forall (fun c => 1 <= length c) chunks ->
  concat chunks = encode_frame t c p ->
  read_frame self (map Recv chunks ++ rest) = Returns (t, c, p) self rest.
Proof.
  intros Ht Hc Hp Hbuf Hne Hcat. unfold read_frame.
  by rewrite (read_frame_try_frame self chunks rest t c p xce).
Qed.

(** C3.  Bad frame end.  When the byte after the payload is [x], not
    [0xCE], [read_frame] raises [UnexpectedFrame] with a message that
    tells [x]; the 7 bytes of the header, the payload and the byte [x]
    are gone from the stream (the buffer is empty and the socket stands
    after the frame) and the transport, [connected] included, is as
    before. *)
Theorem read_frame_bad_trailer (t c : Z) (p : bytes) (x : byte)
    (self : transport) (chunks : list bytes) (rest : socket) :
  (0 <= t < 2 ^ 8)%Z -> (0 <= c < 2 ^ 16)%Z ->
  (Z.of_nat (length p) < 2 ^ 32)%Z ->
  x <> xce ->
  _read_buffer self = [] ->
  Forall (fun c => 1 <= length c) chunks ->
  concat chunks = frame_bytes t c p x ->
  read_frame self (map Recv chunks ++ rest)
  = Raises (UnexpectedFrame (unexpected_frame_msg (u8 x))) self rest
  /\ (forall y : byte,
        unexpected_frame_msg (u8 y) = unexpected_frame_msg (u8 x) -> y = x).
Proof.
  intros Ht Hc Hp Hx Hbuf Hne Hcat. split.
  - unfold read_frame.
    rewrite (read_frame_try_frame self chunks rest t c p x) by done.
    destruct (Z.eqb_spec (u8 x) 206) as [H206|]; [|done].
    destruct Hx. by apply u8_inj.
  - intros y. apply unexpected_frame_msg_inj.
Qed.

(** ** Failures while a frame is read *)

Lemma fails_with_closed (self : transport) :
  fails_with self (Recv []) socket_closed.
Proof. intros n initial b sock Hn. by apply read_exact_closed. Qed.

Lemma fails_with_raise (self : transport) (exc : exn) :
  is_socket_error exc && errno_in (exn_errno exc) (errnos_of (cls self))
    = false ->
  fails_with self (RecvRaises exc) exc.
Proof.
  intros H n initial b sock Hn. apply read_exact_raise; [done|].
  by rewrite H.
Qed.

(** When the buffer holds an incomplete frame and the next call of the
    receive primitive fails, the [try] block is left by the exception
    with the bytes of the buffer split between the local
    [read_frame_buffer] and the buffer of the transport. *)
Lemma read_frame_try_fails (self : transport) (ev : recv_result) (e : exn)
    (sock : socket) :
  frame_incomplete (_read_buffer self) = true ->
  fails_with self ev e ->
  exists read_frame_buffer b,
    read_frame_try self (ev :: sock)
    = (read_frame_buffer, Raises e (set_read_buffer b self) sock)
    /\ read_frame_buffer ++ b = _read_buffer self.
Proof.
  intros Hinc Hev. unfold read_frame_try. rewrite !read_unfold.
  set (E := errnos_of (cls self)). cbv zeta.
  destruct (Nat.lt_ge_cases (length (_read_buffer self)) 7) as [Hshort|Hlong].
  { pose proof (Hev 7 true (_read_buffer self) sock Hshort) as H7.
    rewrite set_read_buffer_same in H7. fold E in H7. rewrite H7.
    exists [], (_read_buffer self). by rewrite set_read_buffer_same. }
  rewrite read_exact_enough by done. cbv beta iota.
  destruct (unpack_BHI_length (take 7 (_read_buffer self)))
    as (t & c & size & Hu & Hsz).
  { rewrite length_take. lia. }
  rewrite Hu. rewrite (frame_incomplete_header _ t c size) in Hinc by done.
  apply Nat.ltb_lt in Hinc.
  rewrite !read_unfold. simpl cls. fold E.
  assert (length (drop 7 (_read_buffer self)) = length (_read_buffer self) - 7)
    as Hd by apply length_drop.
  destruct (Nat.lt_ge_cases (length (drop 7 (_read_buffer self)))
              (Z.to_nat size)) as [Hpay|Hpay].
  { rewrite Hev by done.
    exists (take 7 (_read_buffer self)), (drop 7 (_read_buffer self)).
    split; [done|]. apply take_drop. }
  rewrite read_exact_enough by done. cbv beta iota.
  rewrite read_unfold. simpl cls. fold E. simpl _read_buffer.
  rewrite set_read_buffer_twice. rewrite Hev.
  - eexists _, _. split; [reflexivity|].
    simpl. rewrite <- app_assoc, take_drop. apply take_drop.
  - rewrite length_drop. lia.
Qed.

(** [_read] changes nothing but the buffer. *)
Lemma read_keeps_connected (n : nat) (initial : bool) (self : transport)
    (sock : socket) :
  match _read n initial self sock with
  | Returns _ self' _ | Raises _ self' _ =>
      connected self' = connected self /\ cls self' = cls self
  | Blocks => True
  end.
Proof.
  rewrite read_unfold.
  destruct (read_exact (errnos_of (cls self)) n initial self sock)
    as [r self' sock'|e self' sock'|] eqn:H; [| |done].
  - by apply read_exact_returns in H as (_ & taken & _ & _ & ->).
  - by apply read_exact_raises in H as (taken & _ & ->).
Qed.

Lemma read_frame_try_keeps_connected (self : transport) (sock : socket) :
  match snd (read_frame_try self sock) with
  | Returns _ self' _ | Raises _ self' _ => connected self' = connected self
  | Blocks => True
  end.
Proof.
  unfold read_frame_try. cbv zeta.
  pose proof (read_keeps_connected 7 true self sock) as H1.
  destruct (_read 7 true self sock) as [hd self1 sock1|e self1 sock1|];
    [|by destruct H1|done].
  destruct H1 as [H1 _].
  destruct (unpack_BHI hd) as [[[t c] size]|]; [|done].
  pose proof (read_keeps_connected (Z.to_nat size) false self1 sock1) as H2.
  destruct (_read (Z.to_nat size) false self1 sock1)
    as [pl self2 sock2|e self2 sock2|]; [|simpl; destruct H2; congruence|done].
  destruct H2 as [H2 _].
  pose proof (read_keeps_connected 1 false self2 sock2) as H3.
  destruct (_read 1 false self2 sock2)
    as [tr self3 sock3|e self3 sock3|]; [|simpl; destruct H3; congruence|done].
  destruct H3 as [H3 _].
  destruct (ord tr); simpl; congruence.
Qed.

(** C4.  Peer close.  When the receive primitive returns no byte before
    [n] bytes are there, [_read(n)] raises [IOError('Socket closed')],
    however many bytes the buffer and the chunks before had brought
    (they stay in the buffer); and a [read_frame] that meets this inside
    a frame raises the same exception with [connected] set to false. *)
Theorem peer_close_raises_socket_closed (n : nat) (initial : bool)
    (self : transport) (chunks : list bytes) (rest : socket) :
  Forall (fun c => 1 <= length c) chunks ->
  (length (_read_buffer self) + length (concat chunks) < n ->
   _read n initial self (map Recv chunks ++ Recv [] :: rest)
   = Raises socket_closed
       (set_read_buffer (_read_buffer self ++ concat chunks) self) rest)
  /\
  (frame_incomplete (_read_buffer self ++ concat chunks) = true ->
   exists self',
     read_frame self (map Recv chunks ++ Recv [] :: rest)
     = Raises socket_closed self' rest
     /\ connected self' = false).
Proof.
  intros Hne%nonempty_of_length. split.
  - intros Hlen. rewrite read_unfold, read_exact_absorb by done.
    rewrite read_exact_closed; [done|]. simpl. rewrite length_app. lia.
  - intros Hinc. unfold read_frame. rewrite read_frame_try_absorb by done.
    set (self1 := set_read_buffer _ self).
    destruct (read_frame_try_fails self1 (Recv []) socket_closed rest)
      as (rfb & b & -> & _); [done|apply fails_with_closed|].
    simpl. eexists. split; reflexivity.
Qed.

(** C5, as the code has it.  When [read_frame] raises, [connected] is as
    before if the exception is a timeout, false if it is another I/O
    error whose [errno] is not in [_UNAVAIL], and as before if it is
    another I/O error whose [errno] is in [_UNAVAIL]. *)
Theorem read_frame_disconnect_classification (self : transport)
    (sock : socket) (e : exn) (self' : transport) (sock' : socket) :
  read_frame self sock = Raises e self' sock' ->
  (is_timeout e = true -> connected self' = connected self)
  /\ (is_socket_error e = true -> is_timeout e = false ->
      errno_in (get_errno e) _UNAVAIL = false -> connected self' = false)
  /\ (is_socket_error e = true -> is_timeout e = false ->
      errno_in (get_errno e) _UNAVAIL = true ->
      connected self' = connected self).
Proof.
  unfold read_frame. pose proof (read_frame_try_keeps_connected self sock) as Hc.
  destruct (read_frame_try self sock) as [rfb [[[[t c] p] ch] s1 k1|exc s1 k1|]];
    simpl in Hc; [| |done].
  - destruct (ch =? 206)%Z; [done|]. intros [= <- <- <-]. by rewrite Hc.
  - destruct (is_timeout exc) eqn:Hto.
    { intros [= <- <- <-]. rewrite Hto. simpl. by rewrite Hc. }
    destruct (is_socket_error exc) eqn:Hse.
    2:{ intros [= <- <- <-]. rewrite Hse. done. }
    destruct (is_SSLError exc && str_contains "timed out" (exn_str exc)).
    { intros [= <- <- <-]. simpl. by rewrite Hc. }
    destruct (errno_in (get_errno exc) _UNAVAIL) eqn:Hun; simpl;
      intros [= <- <- <-]; rewrite Hto, Hun; simpl; by rewrite ?Hc.
Qed.

(** C6, as the code has it.  When the receive primitive raises
    [socket.timeout] inside a frame, [read_frame] lets the timeout go on
    with every byte received so far in the buffer, in order, the buffer
    of before first, and nothing else of the transport changed; the next
    [read_frame] then does what a [read_frame] without the timeout would
    have done. *)
Theorem timeout_keeps_frame_bytes (self : transport) (chunks : list bytes)
    (rest : socket) :
  Forall (fun c => 1 <= length c) chunks ->
  frame_incomplete (_read_buffer self ++ concat chunks) = true ->
  read_frame self (map Recv chunks ++ RecvRaises SocketTimeout :: rest)
  = Raises SocketTimeout
      (set_read_buffer (_read_buffer self ++ concat chunks) self) rest
  /\
  read_frame (set_read_buffer (_read_buffer self ++ concat chunks) self) rest
  = read_frame self (map Recv chunks ++ rest).
Proof.
  intros Hne%nonempty_of_length Hinc. split.
  - unfold read_frame. rewrite read_frame_try_absorb by done.
    set (self1 := set_read_buffer _ self).
    destruct (read_frame_try_fails self1 (RecvRaises SocketTimeout)
                SocketTimeout rest)
      as (rfb & b & -> & Hsplit); [done|by apply fails_with_raise|].
    simpl. by rewrite Hsplit.
  - unfold read_frame. by rewrite read_frame_try_absorb.
Qed.

(** ** Transient errors *)

(** Both [_read] retry on an interrupted call and on a try-again. *)
Lemma transient_in_errnos (c : transport_class) (exc : exn) :
  is_transient exc = true ->
  is_socket_error exc = true /\ errno_in (exn_errno exc) (errnos_of c) = true.
Proof.
  unfold is_transient. intros [Hs He]%andb_prop. split; [done|].
  destruct (exn_errno exc) as [z|]; [|done]. simpl in *.
  apply bool_decide_eq_true in He. apply bool_decide_eq_true.
  rewrite !elem_of_cons in He.
  destruct c; unfold errnos_of, TCPTransport._errnos, SSLTransport._errnos;
    rewrite !elem_of_cons; tauto.
Qed.

Lemma read_loop_without_transient (errnos : list Z) (initial raise_flag : bool)
    (n : nat) (sock : socket) (rbuf : bytes) :
  (forall exc, is_transient exc = true ->
     is_socket_error exc = true /\ errno_in (exn_errno exc) errnos = true) ->
  initial && raise_flag = false ->
  read_loop errnos initial raise_flag n rbuf (without_transient sock)
  = let '(ex, rbuf', sock') := read_loop errnos initial raise_flag n rbuf sock in
    (ex, rbuf', without_transient sock').
Proof.
  intros Herr Hflag. revert rbuf.
  induction sock as [|r sock IH]; intros rbuf.
  - simpl. by destruct (length rbuf <? n)%nat.
  - destruct (Nat.lt_ge_cases (length rbuf) n) as [Hlt|Hge].
    2:{ by rewrite !read_loop_enough. }
    destruct r as [s|exc].
    + simpl without_transient. destruct s as [|b s].
      * by rewrite !read_loop_closed.
      * rewrite !read_loop_recv by done. apply IH.
    + simpl without_transient. destruct (is_transient exc) eqn:Htr.
      * destruct (Herr exc Htr) as [Hs He].
        rewrite (read_loop_retry _ _ _ _ _ exc) by done. apply IH.
      * simpl. destruct (Nat.ltb_spec (length rbuf) n); [|lia].
        destruct (is_socket_error exc); [|done].
        destruct (errno_in (exn_errno exc) errnos); [|done].
        rewrite Hflag. apply IH.
Qed.

Lemma read_loop_raise_inv (errnos : list Z) (initial raise_flag : bool)
    (n : nat) (sock : socket) (rbuf : bytes) exc rbuf' sock' :
  read_loop errnos initial raise_flag n rbuf sock = (LoopRaise exc, rbuf', sock') ->
  is_socket_error exc = true -> errno_in (exn_errno exc) errnos = true ->
  initial && raise_flag = true.
Proof.
  revert rbuf. induction sock as [|r sock IH]; intros rbuf; simpl.
  - by destruct (length rbuf <? n)%nat.
  - destruct (length rbuf <? n)%nat; [|done].
    destruct r as [s|e].
    + destruct s; [|apply IH]. by intros [= <- <- <-].
    + destruct (is_socket_error e) eqn:Hs.
      2:{ intros [= <- <- <-]. congruence. }
      destruct (errno_in (exn_errno e) errnos) eqn:He.
      2:{ intros [= <- <- <-]. congruence. }
      destruct (initial && raise_flag); [done|apply IH].
Qed.

Lemma pending_without_transient (sock : socket) :
  pending (without_transient sock) = pending sock.
Proof.
  induction sock as [|[c|exc] sock IH]; simpl; [done|by rewrite IH|].
  by destruct (is_transient exc).
Qed.

Lemma without_transient_interleaved (sock : socket) :
  Forall (fun r => chunk_or_transient r = true) sock ->
  Forall (fun r => chunk_or_transient r = true) (without_transient sock).
Proof.
  induction 1 as [|[c|exc] sock Hr _ IH]; simpl; [done|by constructor|].
  destruct (is_transient exc); [done|by constructor].
Qed.

(** Chunks and transient errors that stay short of [n], then the chunk
    that reaches [n]: every one of them is taken, the errors by a retry,
    and nothing after them. *)
Lemma read_exact_interleaved (errnos : list Z) (n : nat) (initial : bool)
    (pre : socket) (last : bytes) (rest : socket) (self : transport) :
  (forall exc, is_transient exc = true ->
     is_socket_error exc = true /\ errno_in (exn_errno exc) errnos = true) ->
  initial && raise_on_initial_eintr self = false ->
  Forall (fun r => chunk_or_transient r = true) pre ->
  length (_read_buffer self ++ pending pre) < n ->
  n <= length (_read_buffer self ++ pending pre ++ last) ->
  read_exact errnos n initial self (pre ++ Recv last :: rest)
  = Returns (take n (_read_buffer self ++ pending pre ++ last))
      (set_read_buffer (drop n (_read_buffer self ++ pending pre ++ last))
         self)
      rest.
Proof.
  intros Herr Hflag Hpre. revert self Hflag.
  induction Hpre as [|r pre Hr _ IH]; intros self Hflag Hlt Hle.
  - simpl in *. rewrite app_nil_r in Hlt.
    assert (last <> []) as Hlast.
    { intros ->. rewrite app_nil_r in Hle. lia. }
    rewrite read_exact_recv by done.
    by rewrite read_exact_enough.
  - destruct r as [[|b c]|exc]; [done| |].
    + change (pending (Recv (b :: c) :: pre))
        with ((b :: c) ++ pending pre) in *.
      change ((Recv (b :: c) :: pre) ++ Recv last :: rest)
        with (Recv (b :: c) :: (pre ++ Recv last :: rest)).
      rewrite read_exact_recv
        by first [done|rewrite !length_app in Hlt; lia].
      assert (forall l,
                (_read_buffer self ++ b :: c) ++ l
                = _read_buffer self ++ (b :: c) ++ l) as Hassoc.
      { intros l. by rewrite <- app_assoc. }
      rewrite IH; change (_read_buffer (set_read_buffer ?x _)) with x;
        rewrite ?Hassoc, ?(app_assoc (b :: c)); done.
    + simpl in Hr. destruct (Herr exc Hr) as [Hs He]. simpl pending in *.
      change ((RecvRaises exc :: pre) ++ Recv last :: rest)
        with (RecvRaises exc :: (pre ++ Recv last :: rest)).
      rewrite read_exact_retry
        by first [done|rewrite length_app in Hlt; lia].
      by apply IH.
Qed.

(** C8.  Transient errors.  Unless [initial] is true and
    [raise_on_initial_eintr] is set (so always when [initial] is false):
    on a sequence of chunks of at least one byte interleaved with
    transient errors (interrupted calls, try-agains) that stays short of
    [n] bytes, followed by the chunk that reaches [n], [_read(n)] takes
    all of them from the socket, the errors by retrying, and nothing
    that follows; it returns the first [n] bytes of the buffer and the
    chunks in order and keeps the bytes after them, exactly as on the
    sequence with the transient errors removed.  More generally, [_read(n)]
    does on any sequence of receive results what it does on the
    sequence without the interrupted calls and the try-agains: the same
    bytes returned or the same exception, the same buffer kept, the rest
    of the socket the same but for such errors.  A transient error that
    [_read] lets through to its caller implies that [initial] is true
    and the flag set; and then the first transient error met does go
    through, with the buffer as it was. *)
Theorem transient_errors_are_retried (n : nat) (initial : bool)
    (self : transport) (sock : socket) :
  (forall pre last rest,
     initial && raise_on_initial_eintr self = false ->
     Forall (fun r => chunk_or_transient r = true) pre ->
     length (_read_buffer self ++ pending pre) < n ->
     n <= length (_read_buffer self ++ pending pre ++ last) ->
     sock = pre ++ Recv last :: rest ->
     _read n initial self sock
     = Returns (take n (_read_buffer self ++ pending pre ++ last))
         (set_read_buffer
            (drop n (_read_buffer self ++ pending pre ++ last)) self)
         rest
     /\ _read n initial self (without_transient pre ++ Recv last :: rest)
        = _read n initial self sock
     /\ length (take n (_read_buffer self ++ pending pre ++ last)) = n)
  /\
  (initial && raise_on_initial_eintr self = false ->
   _read n initial self (without_transient sock)
   = on_socket without_transient (_read n initial self sock))
  /\
  (forall exc self' sock',
     _read n initial self sock = Raises exc self' sock' ->
     is_transient exc = true ->
     initial = true /\ raise_on_initial_eintr self = true)
  /\
  (forall exc rest,
     initial = true -> raise_on_initial_eintr self = true ->
     is_transient exc = true -> length (_read_buffer self) < n ->
     sock = RecvRaises exc :: rest ->
     _read n initial self sock = Raises exc self rest).
Proof.
  split; [|split; [|split]].
  - intros pre last rest Hflag Hpre Hlt Hle ->. rewrite !read_unfold.
    rewrite (read_exact_interleaved _ _ _ pre)
      by (trivial; apply transient_in_errnos).
    split; [done|]. split; [|rewrite length_take; lia].
    rewrite (read_exact_interleaved _ _ _ (without_transient pre));
      rewrite ?pending_without_transient; trivial.
    + apply transient_in_errnos.
    + by apply without_transient_interleaved.
  - intros Hflag. rewrite !read_unfold. unfold read_exact.
    rewrite read_loop_without_transient;
      [|apply transient_in_errnos|done].
    by destruct (read_loop _ _ _ _ _ sock) as [[[]]].
  - intros exc self' sock'. rewrite read_unfold. unfold read_exact.
    destruct (read_loop _ _ _ _ _ sock) as [[[] rbuf] k] eqn:Hloop;
      try discriminate.
    intros [= <- <- <-] Htr.
    destruct (transient_in_errnos (cls self) _ Htr) as [Hs He].
    by apply andb_prop, (read_loop_raise_inv _ _ _ _ _ _ _ _ _ Hloop).
  - intros exc rest -> Hf Htr Hlen ->. rewrite read_unfold.
    apply read_exact_raise; [done|]. rewrite Hf. simpl.
    by rewrite andb_false_r.
Qed.

(** ** Socket options *)

Lemma lookup_tcp_socket_defaults (platform : gmap string Z) (sock : sockopts)
    (opt : Z) :
  _AbstractTransport._get_tcp_socket_defaults platform sock !! opt
  = if decide (opt ∈ TCP_OPTS platform) then Some (getsockopt opt sock)
    else None.
Proof.
  unfold _AbstractTransport._get_tcp_socket_defaults.
  assert (forall (l : list Z) (d : gmap Z Z),
            foldl (fun d o => <[o := getsockopt o sock]> d) d l !! opt
            = if decide (opt ∈ l) then Some (getsockopt opt sock)
              else d !! opt) as H.
  { induction l as [|o l IH]; intros d; simpl.
    - destruct (decide (opt ∈ [])) as [Hin|]; [|done].
      by apply elem_of_nil in Hin.
    - rewrite IH.
      destruct (decide (opt ∈ l)) as [Hin|Hout],
               (decide (opt ∈ o :: l)) as [Hin'|Hout']; try done.
      + destruct Hout'. by right.
      + apply elem_of_cons in Hin' as [->|]; [|done].
        by rewrite lookup_insert_eq.
      + rewrite lookup_insert_ne; [done|].
        intros ->. apply Hout'. by left. }
  rewrite H. by rewrite lookup_empty.
Qed.

(** The no-delay option is one of [TCP_OPTS] on every platform on which
    [socket.TCP_NODELAY] can be read. *)
Lemma nodelay_in_TCP_OPTS (platform : gmap string Z) (TCP_NODELAY : Z) :
  platform !! "TCP_NODELAY"%string = Some TCP_NODELAY ->
  TCP_NODELAY ∈ TCP_OPTS platform.
Proof.
  intros H. unfold TCP_OPTS. apply list_elem_of_omap.
  exists "TCP_NODELAY"%string. split; [|done].
  unfold KNOWN_TCP_OPTS. rewrite !elem_of_cons. tauto.
Qed.

(** [tcp_opts.setdefault(socket.TCP_NODELAY, 1)] never changes
    [tcp_opts]: the dictionary applied is the current values overlaid
    with the settings of the caller. *)
Lemma merged_tcp_opts_eq (platform : gmap string Z) (settings : gmap Z Z)
    (sock : sockopts) (TCP_NODELAY : Z) :
  platform !! "TCP_NODELAY"%string = Some TCP_NODELAY ->
  _AbstractTransport.merged_tcp_opts platform settings sock
  = Ok (settings ∪ _AbstractTransport._get_tcp_socket_defaults platform sock).
Proof.
  intros H. unfold _AbstractTransport.merged_tcp_opts. rewrite H.
  unfold dict_setdefault, dict_update.
  rewrite lookup_tcp_socket_defaults.
  by rewrite decide_True by by apply nodelay_in_TCP_OPTS.
Qed.

(** Without a no-delay entry in the settings, the no-delay value applied
    is the one the socket has already. *)
Lemma merged_tcp_opts_nodelay (platform : gmap string Z) (settings : gmap Z Z)
    (sock : sockopts) (TCP_NODELAY : Z) :
  platform !! "TCP_NODELAY"%string = Some TCP_NODELAY ->
  settings !! TCP_NODELAY = None ->
  exists tcp_opts,
    _AbstractTransport.merged_tcp_opts platform settings sock = Ok tcp_opts
    /\ tcp_opts !! TCP_NODELAY = Some (getsockopt TCP_NODELAY sock).
Proof.
  intros H Hs. eexists. split; [by eapply merged_tcp_opts_eq|].
  rewrite lookup_union_r by done. rewrite lookup_tcp_socket_defaults.
  by rewrite decide_True by by apply nodelay_in_TCP_OPTS.
Qed.

(** C7, at an input on which the code departs from it.  On Linux, with
    the settings [{TCP_KEEPIDLE: 60}] and a socket just connected, the
    dictionary applied has no-delay at 0, the value the socket had,
    where the dictionary of the spec has 1; and the socket is left with
    no-delay 0, where the call without settings leaves it with 1. *)
Theorem nodelay_default_not_applied :
  match _AbstractTransport.merged_tcp_opts linux_socket_module
          keepidle_settings fresh_sockopts,
        spec_tcp_opts linux_socket_module keepidle_settings fresh_sockopts
  with
  | Ok tcp_opts, Ok spec_opts =>
      keepidle_settings !! 1%Z = None
      /\ tcp_opts !! 1%Z = Some 0%Z /\ spec_opts !! 1%Z = Some 1%Z
  | _, _ => False
  end
  /\ match _AbstractTransport._set_socket_options linux_socket_module
             (Some keepidle_settings) fresh_sockopts,
           _AbstractTransport._set_socket_options linux_socket_module
             None fresh_sockopts
     with
     | Ok sock, Ok sock' =>
         getsockopt 1 sock = 0%Z /\ getsockopt 1 sock' = 1%Z
     | _, _ => False
     end.
Proof. vm_compute. repeat split. Qed.

(** ** [to_host_port] *)

Lemma span_is_digit (s a b : string) :
  span is_digit s = (a, b) -> all_digits a = true.
Proof.
  revert a b. induction s as [|ch s IH]; intros a b; simpl.
  - by intros [= <- <-].
  - destruct (is_digit ch) eqn:Hd; [|by intros [= <- <-]].
    destruct (span is_digit s) as [a' b'].
    intros [= <- <-]. simpl. rewrite Hd. by eapply IH.
Qed.

(** Group 2 of [IPV6_LITERAL], when it takes part in the match, is a
    non-empty string of digits. *)
Lemma IPV6_LITERAL_group2 (host group1 group2 : string) :
  IPV6_LITERAL_match host = Some (group1, Some group2) ->
  group2 <> EmptyString /\ all_digits group2 = true.
Proof.
  unfold IPV6_LITERAL_match.
  destruct host as [|ch host]; [done|].
  repeat (case_match; try done); intros [= <- <-];
    (split; [done|by eapply span_is_digit]).
Qed.

Lemma split_last_contains (sep : ascii) (s : string) :
  contains_char sep s = true <-> is_Some (split_last sep s).
Proof.
  induction s as [|ch s IH]; simpl.
  - split; [done|by intros [? ?]].
  - destruct (split_last sep s) as [[a b]|].
    + destruct IH as [_ ->]; [|done]. rewrite orb_true_r. done.
    + destruct (contains_char sep s).
      { destruct IH as [[? ?] _]; done. }
      rewrite orb_false_r. destruct (Ascii.eqb ch sep); [done|].
      split; [done|by intros [? ?]].
Qed.

(** C9.  Endpoint parsing.  With an [int] that reads decimal digits,
    ["[fe80::1]:5432"] gives host ["fe80::1"] and port 5432,
    ["broker:5673"] gives ["broker"] and 5673, ["broker"] gives
    ["broker"] and no port; and [to_host_port], a function of the string
    alone, raises exactly when the string is no bracketed literal, has a
    colon, and [int] rejects what follows the last colon: the
    [ValueError] of [int]. *)
Theorem to_host_port_endpoints (int : string -> option Z) :
  reads_decimal int ->
  to_host_port int "[fe80::1]:5432" AMQP_PORT
  = Ok ("fe80::1"%string, Some 5432%Z)
  /\ to_host_port int "broker:5673" AMQP_PORT
     = Ok ("broker"%string, Some 5673%Z)
  /\ to_host_port int "broker" AMQP_PORT = Ok ("broker"%string, None)
  /\ forall host default e,
       to_host_port int host default = Error e
       <-> IPV6_LITERAL_match host = None
           /\ exists h p,
                split_last ":" host = Some (h, p)
                /\ int p = None /\ e = ValueError p.
Proof.
  intros Hint. split; [|split; [|split]].
  - unfold to_host_port. simpl. by rewrite (Hint "5432"%string).
  - unfold to_host_port. simpl. by rewrite (Hint "5673"%string).
  - reflexivity.
  - intros host default e. unfold to_host_port.
    destruct (IPV6_LITERAL_match host) as [[g1 [g2|]]|] eqn:Hm.
    + apply IPV6_LITERAL_group2 in Hm as [Hne Hd].
      rewrite (Hint g2) by done. split; [done|by intros [? _]].
    + split; [done|by intros [? _]].
    + pose proof (split_last_contains ":" host) as Hc. unfold rsplit1.
      destruct (contains_char ":" host).
      * destruct Hc as [[[h p] Hs] _]; [done|]. rewrite Hs.
        destruct (int p) eqn:Hp.
        -- split; [done|]. intros (_ & h' & p' & [= <- <-] & ? & _).
           congruence.
        -- split.
           ++ intros [= <-]. split; [done|]. by exists h, p.
           ++ intros (_ & h' & p' & [= <- <-] & _ & ->). done.
      * split; [done|]. intros (_ & h & p & Hs & _).
        destruct Hc as [_ Hc].
        assert (false = true) as Hf by (apply Hc; by eexists).
        discriminate Hf.
Qed.

(** ** Construction and TLS setup *)

Lemma abstract_init_keeps (int : string -> option Z) (self0 self : transport)
    host ct rt wt ss flag :
  _AbstractTransport.__init__ int self0 host ct rt wt ss flag = Ok self ->
  sslopts self = sslopts self0 /\ cls self = cls self0
  /\ connected self = true /\ _read_buffer self = EMPTY_BUFFER.
Proof.
  unfold _AbstractTransport.__init__.
  destruct (to_host_port int host AMQP_PORT) as [[h p]|]; [|done].
  by intros [= <-].
Qed.

Lemma setup_without_sslopts (self : transport) (peer : tls_peer)
    (tls : option tls_session) :
  sslopts self = None ->
  SSLTransport._setup_transport self peer tls
  = (Some (AttributeError "sslopts"), tls).
Proof. intros H. unfold SSLTransport._setup_transport. by rewrite H. Qed.

(** C10.  The [ssl] argument of a secure transport.  An [SSLTransport]
    built with an [ssl] argument that is no dictionary has no [sslopts]
    attribute, and its [_setup_transport] raises [AttributeError] with
    the socket not wrapped and no handshake done; this is what the
    factory [Transport] builds for every true [ssl] that is no
    dictionary, [True] among them.  Built with a dictionary, the
    transport has it as [sslopts], and its [_setup_transport] wraps the
    socket and does the handshake (when neither fails, and the
    [context] entry, if true, is a dictionary). *)
Theorem ssl_argument_must_be_mapping (int : string -> option Z)
    (host : string) (ct rt wt : option Z) (ss : option (gmap Z Z))
    (flag : bool) :
  (forall ssl self,
     is_dict ssl = false ->
     SSLTransport.__init__ int (object_new cls_SSLTransport) host ct ssl
       rt wt ss flag = Ok self ->
     sslopts self = None
     /\ forall peer tls,
          SSLTransport._setup_transport self peer tls
          = (Some (AttributeError "sslopts"), tls))
  /\
  (forall ssl self,
     truthy ssl = true -> is_dict ssl = false ->
     Transport int host ct ssl rt wt ss flag = Ok self ->
     cls self = cls_SSLTransport /\ sslopts self = None
     /\ forall peer tls,
          SSLTransport._setup_transport self peer tls
          = (Some (AttributeError "sslopts"), tls))
  /\
  (forall d self,
     SSLTransport.__init__ int (object_new cls_SSLTransport) host ct
       (PyDict d) rt wt ss flag = Ok self ->
     sslopts self = Some d
     /\ forall peer tls,
          wrap_error peer = None -> handshake_error peer = None ->
          (forall x, dict_get "context" d = Some x ->
                     truthy x = true -> is_dict x = true) ->
          exists session,
            SSLTransport._setup_transport self peer tls
            = (None, Some session)
            /\ tls_handshake_done session = true).
Proof.
  assert (forall ssl self,
            is_dict ssl = false ->
            SSLTransport.__init__ int (object_new cls_SSLTransport) host ct
              ssl rt wt ss flag = Ok self ->
            cls self = cls_SSLTransport /\ sslopts self = None) as Hno.
  { intros ssl self Hd. unfold SSLTransport.__init__.
    intros (Hs & Hc & _)%abstract_init_keeps. rewrite Hc, Hs.
    by destruct ssl. }
  split; [|split].
  - intros ssl self Hd Hinit. destruct (Hno ssl self Hd Hinit) as [_ Hs].
    split; [done|]. intros peer tls. by apply setup_without_sslopts.
  - intros ssl self Ht Hd. unfold Transport. rewrite Ht. intros Hinit.
    destruct (Hno ssl self Hd Hinit) as [Hc Hs].
    do 2 (split; [done|]). intros peer tls. by apply setup_without_sslopts.
  - intros d self. unfold SSLTransport.__init__.
    intros (Hs & _)%abstract_init_keeps. simpl in Hs. split; [done|].
    intros peer tls Hw Hh Hctx. unfold SSLTransport._setup_transport.
    rewrite Hs. cbv zeta.
    assert (match d with [] => [] | _ => d end = d) as -> by by destruct d.
    unfold SSLTransport._wrap_socket.
    destruct (dict_get "context" d) as [x|] eqn:Hx; simpl.
    + destruct (truthy x) eqn:Ht.
      * specialize (Hctx x eq_refl Ht). destruct x; try discriminate.
        unfold SSLTransport._wrap_context, SSLTransport.wrap.
        rewrite Hw, Hh. by eexists.
      * unfold SSLTransport.wrap. rewrite Hw, Hh. by eexists.
    + unfold SSLTransport.wrap. rewrite Hw, Hh. by eexists.
Qed.

(** * The properties at sample inputs *)

Lemma read_returns_exactly_n_witness :
  _read 3 false (sample_transport cls_TCPTransport false [])
    [Recv [x61]; Recv [x62; x63]; Recv [x64]]
  = Returns [x61; x62; x63] (sample_transport cls_TCPTransport false [])
      [Recv [x64]]
  /\ length [x61; x62; x63] = 3.
Proof.
  split.
  - apply (proj1 (read_returns_exactly_n 3 false
                    (sample_transport cls_TCPTransport false [])
                    [Recv [x61]; Recv [x62; x63]; Recv [x64]])
             [[x61]; [x62; x63]] [Recv [x64]]).
    + reflexivity.
    + repeat constructor.
    + reflexivity.
    + reflexivity.
  - apply (proj2 (read_returns_exactly_n 3 false
                    (sample_transport cls_TCPTransport false [])
                    [Recv [x61]; Recv [x62; x63]; Recv [x64]])
             [x61; x62; x63] (sample_transport cls_TCPTransport false [])
             [Recv [x64]]).
    reflexivity.
Defined.

Lemma read_frame_round_trip_witness :
  read_frame (sample_transport cls_SSLTransport false [])
    (map Recv [[x01; x00; x02]; [x00; x00; x00; x03]; [x61; x62]; [x63];
               [xce]] ++ [])
  = Returns (1%Z, 2%Z, [x61; x62; x63])
      (sample_transport cls_SSLTransport false []) [].
Proof.
  apply read_frame_round_trip.
  - lia.
  - lia.
  - simpl. lia.
  - reflexivity.
  - repeat constructor.
  - reflexivity.
Defined.

Lemma read_frame_bad_trailer_witness :
  read_frame (sample_transport cls_TCPTransport false [])
    (map Recv [[x01; x00; x02; x00; x00; x00; x03]; [x61; x62; x63];
               [x05]] ++ [])
  = Raises (UnexpectedFrame "Received 0x05 while expecting 0xce")
      (sample_transport cls_TCPTransport false []) []
  /\ (forall y : byte,
        unexpected_frame_msg (u8 y) = unexpected_frame_msg (u8 x05) ->
        y = x05).
Proof.
  apply (read_frame_bad_trailer 1 2 [x61; x62; x63] x05).
  - lia.
  - lia.
  - simpl. lia.
  - discriminate.
  - reflexivity.
  - repeat constructor.
  - reflexivity.
Defined.

Lemma peer_close_raises_socket_closed_witness :
  _read 3 false (sample_transport cls_TCPTransport false [x61])
    (map Recv [[x62]] ++ Recv [] :: [])
  = Raises socket_closed
      (sample_transport cls_TCPTransport false [x61; x62]) []
  /\ exists self',
       read_frame (sample_transport cls_TCPTransport false [x01; x00])
         (map Recv [[x02; x00; x00; x00; x03]; [x61]] ++ Recv [] :: [])
       = Raises socket_closed self' []
       /\ connected self' = false.
Proof.
  split.
  - apply (proj1 (peer_close_raises_socket_closed 3 false
                    (sample_transport cls_TCPTransport false [x61])
                    [[x62]] [] ltac:(repeat constructor))).
    simpl. lia.
  - apply (proj2 (peer_close_raises_socket_closed 0 false
                    (sample_transport cls_TCPTransport false [x01; x00])
                    [[x02; x00; x00; x00; x03]; [x61]] []
                    ltac:(repeat constructor))).
    reflexivity.
Defined.

Lemma read_frame_disconnect_classification_witness :
  read_frame (sample_transport cls_TCPTransport false [])
    [Recv [x01; x00; x02]; RecvRaises (OSError (Some 104%Z) "reset")]
  = Raises (OSError (Some 104%Z) "reset")
      (set_connected false
         (sample_transport cls_TCPTransport false [x01; x00; x02])) []
  /\ connected
       (set_connected false
          (sample_transport cls_TCPTransport false [x01; x00; x02]))
     = false.
Proof.
  split; [reflexivity|].
  apply (read_frame_disconnect_classification
           (sample_transport cls_TCPTransport false [])
           [Recv [x01; x00; x02]; RecvRaises (OSError (Some 104%Z) "reset")]
           (OSError (Some 104%Z) "reset")
           (set_connected false
              (sample_transport cls_TCPTransport false [x01; x00; x02]))
           []).
  - reflexivity.
  - reflexivity.
  - reflexivity.
  - reflexivity.
Defined.

Lemma timeout_keeps_frame_bytes_witness :
  read_frame (sample_transport cls_TCPTransport false [])
    (map Recv [[x01; x00; x02; x00; x00; x00; x03]; [x61]]
       ++ RecvRaises SocketTimeout :: [Recv [x62; x63]; Recv [xce]])
  = Raises SocketTimeout
      (sample_transport cls_TCPTransport false
         [x01; x00; x02; x00; x00; x00; x03; x61])
      [Recv [x62; x63]; Recv [xce]]
  /\
  read_frame
    (sample_transport cls_TCPTransport false
       [x01; x00; x02; x00; x00; x00; x03; x61])
    [Recv [x62; x63]; Recv [xce]]
  = read_frame (sample_transport cls_TCPTransport false [])
      (map Recv [[x01; x00; x02; x00; x00; x00; x03]; [x61]]
         ++ [Recv [x62; x63]; Recv [xce]]).
Proof.
  apply (timeout_keeps_frame_bytes
           (sample_transport cls_TCPTransport false [])
           [[x01; x00; x02; x00; x00; x00; x03]; [x61]]
           [Recv [x62; x63]; Recv [xce]]).
  - repeat constructor.
  - reflexivity.
Defined.

Lemma transient_errors_are_retried_witness :
  _read 2 false (sample_transport cls_TCPTransport true [])
    [Recv [x61]; RecvRaises (OSError (Some errno.EINTR) "Interrupted");
     Recv [x62; x63]; RecvRaises (OSError (Some errno.EAGAIN) "Try again")]
  = Returns [x61; x62]
      (set_read_buffer [x63] (sample_transport cls_TCPTransport true []))
      [RecvRaises (OSError (Some errno.EAGAIN) "Try again")]
  /\
  _read 2 false (sample_transport cls_TCPTransport true [])
    (without_transient
       [Recv [x61]; RecvRaises (OSError (Some errno.EINTR) "Interrupted");
        Recv [x62]])
  = on_socket without_transient
      (_read 2 false (sample_transport cls_TCPTransport true [])
         [Recv [x61]; RecvRaises (OSError (Some errno.EINTR) "Interrupted");
          Recv [x62]])
  /\
  _read 2 true (sample_transport cls_TCPTransport true [])
    [RecvRaises (OSError (Some errno.EAGAIN) "Try again"); Recv [x61; x62]]
  = Raises (OSError (Some errno.EAGAIN) "Try again")
      (sample_transport cls_TCPTransport true []) [Recv [x61; x62]].
Proof.
  split; [|split].
  - apply (proj1 (transient_errors_are_retried 2 false
                    (sample_transport cls_TCPTransport true []) _)
             [Recv [x61];
              RecvRaises (OSError (Some errno.EINTR) "Interrupted")]
             [x62; x63]
             [RecvRaises (OSError (Some errno.EAGAIN) "Try again")]).
    + reflexivity.
    + repeat constructor.
    + simpl. lia.
    + simpl. lia.
    + reflexivity.
  - apply (proj1 (proj2 (transient_errors_are_retried 2 false
                           (sample_transport cls_TCPTransport true []) _))).
    reflexivity.
  - apply (proj2 (proj2 (proj2 (transient_errors_are_retried 2 true
                           (sample_transport cls_TCPTransport true []) _)))
             (OSError (Some errno.EAGAIN) "Try again") [Recv [x61; x62]]).
    + reflexivity.
    + reflexivity.
    + reflexivity.
    + simpl. lia.
    + reflexivity.
Defined.

Lemma int_of_digits_reads_decimal : reads_decimal int_of_digits.
Proof.
  intros s Hne Hd. unfold int_of_digits. destruct s; [done|]. by rewrite Hd.
Qed.

Lemma to_host_port_endpoints_witness :
  to_host_port int_of_digits "[fe80::1]:5432" AMQP_PORT
  = Ok ("fe80::1"%string, Some 5432%Z)
  /\ (to_host_port int_of_digits "broker:amqp" AMQP_PORT
      = Error (ValueError "amqp")
      <-> IPV6_LITERAL_match "broker:amqp" = None
          /\ exists h p,
               split_last ":" "broker:amqp" = Some (h, p)
               /\ int_of_digits p = None
               /\ ValueError "amqp" = ValueError p).
Proof.
  split.
  - apply (to_host_port_endpoints int_of_digits int_of_digits_reads_decimal).
  - apply (to_host_port_endpoints int_of_digits int_of_digits_reads_decimal).
Defined.

Lemma ssl_argument_must_be_mapping_witness :
  Transport int_of_digits "broker:5671" None (PyBool true) None None None false
  = Ok (mkTransport cls_SSLTransport true false [] "broker" (Some 5671%Z)
          None None None None None)
  /\ SSLTransport._setup_transport
       (mkTransport cls_SSLTransport true false [] "broker" (Some 5671%Z)
          None None None None None)
       (mkPeer None None) None
     = (Some (AttributeError "sslopts"), None).
Proof.
  split; [reflexivity|].
  apply (proj1 (proj2 (ssl_argument_must_be_mapping int_of_digits
                         "broker:5671" None None None None false))
           (PyBool true)).
  - reflexivity.
  - reflexivity.
  - reflexivity.
Defined.

(** * Where the code departs from a claim as the spec words it *)

(** C5 as the spec words it fails.  With [raise_on_initial_eintr] set,
    an interrupted call while the header is awaited goes through
    [read_frame]: an I/O error that is no timeout, and yet [connected]
    stays true, as the test of [_UNAVAIL] wants it. *)
Lemma interrupt_leaves_connected :
  read_frame (sample_transport cls_TCPTransport true [])
    [RecvRaises (OSError (Some errno.EINTR) "Interrupted system call")]
  = Raises (OSError (Some errno.EINTR) "Interrupted system call")
      (sample_transport cls_TCPTransport true []) []
  /\ is_socket_error (OSError (Some errno.EINTR) "Interrupted system call")
     = true
  /\ is_timeout (OSError (Some errno.EINTR) "Interrupted system call") = false
  /\ connected (sample_transport cls_TCPTransport true []) = true.
Proof. repeat split. Qed.

(** C6 as the spec words it fails.  A connection reset met after the
    header and one byte of the payload have been received leaves only the
    byte of the payload in the buffer: the 7 bytes of the header, already
    returned by the first [_read], are not put back, the handler that
    puts them back being the one of [socket.timeout] alone. *)
Lemma reset_drops_frame_header :
  read_frame (sample_transport cls_TCPTransport false [])
    [Recv [x01; x00; x02; x00; x00; x00; x03]; Recv [x61];
     RecvRaises (OSError (Some 104%Z) "Connection reset by peer")]
  = Raises (OSError (Some 104%Z) "Connection reset by peer")
      (set_connected false (sample_transport cls_TCPTransport false [x61]))
      []
  /\ _read_buffer
       (set_connected false (sample_transport cls_TCPTransport false [x61]))
     <> [x01; x00; x02; x00; x00; x00; x03; x61].
Proof. split; [reflexivity|discriminate]. Qed.

(** The timeout of a secure socket that comes as an [SSLError] is turned
    into [socket.timeout] by the second handler of [read_frame], which
    does not put the bytes of the frame back. *)
Example ssl_timeout_drops_frame_header :
  read_frame (sample_transport cls_SSLTransport false [])
    [Recv [x01; x00; x02; x00; x00; x00; x03]; Recv [x61];
     RecvRaises (SSLError None "The read operation timed out")]
  = Raises SocketTimeout (sample_transport cls_SSLTransport false [x61]) [].
Proof. reflexivity. Qed.

(** * Further properties *)

(** ** [_read]: what an exception leaves behind *)

Lemma read_loop_raise_origin (errnos : list Z) (initial raise_flag : bool)
    (n : nat) (sock : socket) (rbuf : bytes) exc rbuf' sock' :
  read_loop errnos initial raise_flag n rbuf sock = (LoopRaise exc, rbuf', sock') ->
  exists taken ev,
    sock = taken ++ ev :: sock'
    /\ (ev = RecvRaises exc \/ ev = Recv [] /\ exc = socket_closed)
    /\ rbuf' = rbuf ++ pending taken
    /\ length rbuf' < n.
Proof.
  revert rbuf. induction sock as [|r sock IH]; intros rbuf; simpl.
  - by destruct (length rbuf <? n)%nat.
  - destruct (Nat.ltb_spec (length rbuf) n) as [Hlt|]; [|done].
    assert (forall e, (LoopRaise e, rbuf, sock) = (LoopRaise exc, rbuf', sock') ->
              r = RecvRaises e \/ r = Recv [] /\ e = socket_closed ->
              exists taken ev,
                r :: sock = taken ++ ev :: sock'
                /\ (ev = RecvRaises exc \/ ev = Recv [] /\ exc = socket_closed)
                /\ rbuf' = rbuf ++ pending taken /\ length rbuf' < n) as Hstop.
    { intros e [= <- <- <-] Hr. exists [], r. simpl.
      rewrite app_nil_r. done. }
    assert (forall rbuf1,
              read_loop errnos initial raise_flag n rbuf1 sock
              = (LoopRaise exc, rbuf', sock') ->
              rbuf1 = rbuf ++ pending [r] ->
              exists taken ev,
                r :: sock = taken ++ ev :: sock'
                /\ (ev = RecvRaises exc \/ ev = Recv [] /\ exc = socket_closed)
                /\ rbuf' = rbuf ++ pending taken /\ length rbuf' < n) as Hgo.
    { intros rbuf1 H ->. apply IH in H as (taken & ev & -> & Hev & -> & Hn).
      exists (r :: taken), ev. split; [done|]. split; [done|].
      split; [|done]. destruct r; simpl; rewrite ?app_nil_r;
        by rewrite <- ?app_assoc. }
    destruct r as [s|e].
    + destruct s as [|b s].
      * intros H. eapply Hstop; [exact H|]. by right.
      * intros H. eapply Hgo; [exact H|]. simpl. by rewrite app_nil_r.
    + destruct (is_socket_error e);
        [destruct (errno_in (exn_errno e) errnos);
         [destruct (initial && raise_flag)|]|];
        try (intros H; eapply Hstop; [exact H|by left]).
      intros H. eapply Hgo; [exact H|]. simpl. by rewrite app_nil_r.
Qed.

(** X1.  An exception of [_read] is the one the receive primitive raised,
    or [IOError('Socket closed')] after an empty receive; it comes while
    the buffer is still short of [n]; and the buffer then holds what it
    held before followed by every byte received during the call, in
    order, the rest of the transport being as before. *)
Theorem read_failure_keeps_received (n : nat) (initial : bool)
    (self : transport) (sock : socket) (exc : exn) (self' : transport)
    (sock' : socket) :
  _read n initial self sock = Raises exc self' sock' ->
  exists taken ev,
    sock = taken ++ ev :: sock'
    /\ (ev = RecvRaises exc \/ ev = Recv [] /\ exc = socket_closed)
    /\ self' = set_read_buffer (_read_buffer self ++ pending taken) self
    /\ length (_read_buffer self') < n.
Proof.
  rewrite read_unfold. unfold read_exact.
  destruct (read_loop _ _ _ _ _ sock) as [[[] rbuf] k] eqn:Hloop;
    try discriminate.
  intros [= <- <- <-].
  apply read_loop_raise_origin in Hloop as (taken & ev & -> & Hev & -> & Hn).
  by exists taken, ev.
Qed.

Lemma read_failure_keeps_received_witness :
  exists taken ev,
    [Recv [x61]; Recv [x62]; RecvRaises SocketTimeout; Recv [x63]]
    = taken ++ ev :: [Recv [x63]]
    /\ (ev = RecvRaises SocketTimeout
        \/ ev = Recv [] /\ SocketTimeout = socket_closed)
    /\ sample_transport cls_SSLTransport false [x60; x61; x62]
       = set_read_buffer
           (_read_buffer (sample_transport cls_SSLTransport false [x60])
              ++ pending taken)
           (sample_transport cls_SSLTransport false [x60])
    /\ length (_read_buffer
                 (sample_transport cls_SSLTransport false [x60; x61; x62]))
       < 5.
Proof.
  apply (read_failure_keeps_received 5 false
           (sample_transport cls_SSLTransport false [x60])
           [Recv [x61]; Recv [x62]; RecvRaises SocketTimeout; Recv [x63]]
           SocketTimeout).
  reflexivity.
Defined.

(** ** [read_frame] on a stream of frames *)

Lemma frame_bytes_complete t c p x (more : bytes) :
  (0 <= t < 2 ^ 8)%Z -> (0 <= c < 2 ^ 16)%Z ->
  (Z.of_nat (length p) < 2 ^ 32)%Z ->
  frame_incomplete (frame_bytes t c p x ++ more) = false.
Proof.
  intros Ht Hc Hp.
  rewrite (frame_incomplete_header _ t c (Z.of_nat (length p))).
  - apply Nat.ltb_ge. rewrite length_app, frame_bytes_length. lia.
  - rewrite length_app, frame_bytes_length. lia.
  - unfold frame_bytes. rewrite <- app_assoc, take_app_length' by done.
    apply unpack_frame_header; lia.
Qed.

(** A buffer that holds a complete frame holds the frame the stream
    starts with. *)
Lemma frame_complete_prefix (b tail : bytes) t c p x (more : bytes) :
  (0 <= t < 2 ^ 8)%Z -> (0 <= c < 2 ^ 16)%Z ->
  (Z.of_nat (length p) < 2 ^ 32)%Z ->
  frame_incomplete b = false ->
  b ++ tail = frame_bytes t c p x ++ more ->
  exists m, b = frame_bytes t c p x ++ m /\ more = m ++ tail.
Proof.
  intros Ht Hc Hp Hcomplete Heq.
  destruct (Nat.lt_ge_cases (length b) 7) as [Hs|Hl].
  { by rewrite frame_incomplete_short in Hcomplete. }
  assert (take 7 b = frame_header t c (Z.of_nat (length p))) as Hh.
  { rewrite <- (take_app_le b tail) by done. rewrite Heq.
    unfold frame_bytes. by rewrite <- app_assoc, take_app_length'. }
  rewrite (frame_incomplete_header _ t c (Z.of_nat (length p))) in Hcomplete;
    [|done|rewrite Hh; apply unpack_frame_header; lia].
  apply Nat.ltb_ge in Hcomplete. rewrite Nat2Z.id in Hcomplete.
  pose proof (frame_bytes_length t c p x) as HL.
  set (F := frame_bytes t c p x) in *.
  exists (drop (length F) b). split.
  - rewrite <- (take_drop (length F) b) at 1. f_equal.
    rewrite <- (take_app_le b tail) by lia. rewrite Heq.
    by rewrite take_app_length.
  - rewrite <- drop_app_le by lia. rewrite Heq. by rewrite drop_app_length.
Qed.

Lemma read_frame_try_stream (chunks : list bytes) (self : transport)
    (rest : socket) t c p x (more : bytes) :
  (0 <= t < 2 ^ 8)%Z -> (0 <= c < 2 ^ 16)%Z ->
  (Z.of_nat (length p) < 2 ^ 32)%Z ->
  Forall (fun c => c <> []) chunks ->
  _read_buffer self ++ concat chunks = frame_bytes t c p x ++ more ->
  exists b' chunks',
    Forall (fun c => c <> []) chunks'
    /\ read_frame_try self (map Recv chunks ++ rest)
       = (frame_header t c (Z.of_nat (length p)) ++ p,
          Returns (t, c, p, u8 x) (set_read_buffer b' self)
            (map Recv chunks' ++ rest))
    /\ b' ++ concat chunks' = more.
Proof.
  intros Ht Hc Hp Hne. revert self.
  induction Hne as [|c0 chunks Hc0 Hne IH]; intros self Heq.
  - simpl in *. rewrite app_nil_r in Heq. exists more, []. split; [done|].
    split; [|by rewrite app_nil_r].
    by apply read_frame_try_buffered.
  - destruct (frame_incomplete (_read_buffer self)) eqn:Hinc.
    + simpl. rewrite read_frame_try_recv by done.
      destruct (IH (set_read_buffer (_read_buffer self ++ c0) self))
        as (b' & chunks' & Hne' & Hrun & Hmore).
      { simpl in *. by rewrite <- app_assoc. }
      exists b', chunks'. by rewrite Hrun.
    + destruct (frame_complete_prefix _ _ t c p x more Ht Hc Hp Hinc Heq)
        as (m & Hb & ->).
      exists m, (c0 :: chunks). split; [by constructor|]. split; [|done].
      by apply read_frame_try_buffered.
Qed.

(** X2.  One frame off a stream.  When the bytes still unread (the
    buffer, then the chunks the socket will hand over) start with the
    wire form of a frame, [read_frame] returns that frame and leaves
    unread exactly the bytes after it, wherever the chunks are cut, also
    across the end of the frame; it changes the buffer only, and stops
    taking chunks. *)
Theorem read_frame_takes_first_frame (t c : Z) (p : bytes) (more : bytes)
    (self : transport) (chunks : list bytes) (rest : socket) :
  (0 <= t < 2 ^ 8)%Z -> (0 <= c < 2 ^ 16)%Z ->
  (Z.of_nat (length p) < 2 ^ 32)%Z ->
  Forall (fun c => 1 <= length c) chunks ->
  _read_buffer self ++ concat chunks = encode_frame t c p ++ more ->
  exists b' chunks',
    read_frame self (map Recv chunks ++ rest)
    = Returns (t, c, p) (set_read_buffer b' self) (map Recv chunks' ++ rest)
    /\ b' ++ concat chunks' = more
    /\ Forall (fun c => 1 <= length c) chunks'.
Proof.
  intros Ht Hc Hp Hne%nonempty_of_length Heq.
  destruct (read_frame_try_stream chunks self rest t c p xce more)
    as (b' & chunks' & Hne' & Hrun & Hmore); try done.
  exists b', chunks'. unfold read_frame. rewrite Hrun. split; [done|].
  split; [done|]. eapply Forall_impl; [exact Hne'|].
  intros [|] ?; simpl; [done|lia].
Qed.

Lemma read_frame_takes_first_frame_witness :
  exists b' chunks',
    read_frame (sample_transport cls_TCPTransport false [x01; x00])
      (map Recv [[x02; x00; x00; x00; x03]; [x61; x62]; [x63]; [xce]]
         ++ [Recv [x08]])
    = Returns (1%Z, 2%Z, [x61; x62; x63])
        (set_read_buffer b'
           (sample_transport cls_TCPTransport false [x01; x00]))
        (map Recv chunks' ++ [Recv [x08]])
    /\ b' ++ concat chunks' = []
    /\ Forall (fun c => 1 <= length c) chunks'.
Proof.
  apply (read_frame_takes_first_frame 1 2 [x61; x62; x63] []).
  - lia.
  - lia.
  - simpl. lia.
  - repeat constructor.
  - reflexivity.
Defined.

(** ** Interrupted calls while a frame is read *)

Lemma read_frame_try_retry (self : transport) (exc : exn) (sock : socket) :
  is_transient exc = true ->
  frame_incomplete (_read_buffer self) = true ->
  7 <= length (_read_buffer self) \/ raise_on_initial_eintr self = false ->
  read_frame_try self (RecvRaises exc :: sock) = read_frame_try self sock.
Proof.
  intros Htr Hinc Hwhere.
  destruct (transient_in_errnos (cls self) exc Htr) as [Hs He].
  unfold read_frame_try. rewrite !read_unfold.
  set (E := errnos_of (cls self)) in *. cbv zeta.
  destruct (Nat.lt_ge_cases (length (_read_buffer self)) 7) as [Hshort|Hlong].
  { destruct Hwhere as [?|Hflag]; [lia|].
    by rewrite read_exact_retry by (rewrite ?Hflag; done). }
  rewrite !read_exact_enough by done. cbv beta iota.
  destruct (unpack_BHI_length (take 7 (_read_buffer self)))
    as (t & c & size & Hu & Hsz).
  { rewrite length_take. lia. }
  rewrite Hu. rewrite (frame_incomplete_header _ t c size) in Hinc by done.
  apply Nat.ltb_lt in Hinc.
  rewrite !read_unfold. simpl cls. fold E.
  assert (length (drop 7 (_read_buffer self)) = length (_read_buffer self) - 7)
    as Hd by apply length_drop.
  destruct (Nat.lt_ge_cases (length (drop 7 (_read_buffer self)))
              (Z.to_nat size)) as [Hpay|Hpay].
  { by rewrite read_exact_retry. }
  rewrite !read_exact_enough by done. cbv beta iota.
  rewrite !read_unfold. simpl cls. fold E.
  rewrite read_exact_retry; try done.
  simpl. rewrite length_drop. lia.
Qed.

Lemma transient_not_timeout (exc : exn) :
  is_transient exc = true ->
  is_timeout exc = false /\ errno_in (get_errno exc) _UNAVAIL = true.
Proof.
  unfold is_transient, get_errno. intros [Hs He]%andb_prop.
  destruct exc as [[z|] ?| |[z|] ?| | | | | |]; try done; simpl in *;
    (split; [done|]); apply bool_decide_eq_true in He;
    apply bool_decide_eq_true; unfold _UNAVAIL;
    rewrite !elem_of_cons in *; tauto.
Qed.

(** X3.  An interrupted call or a try-again that comes once the header
    of the frame is in, or at any point when [raise_on_initial_eintr] is
    not set, does not show: [read_frame] does what it does on the socket
    without that error. *)
Theorem read_frame_retries_inside_frame (self : transport)
    (chunks : list bytes) (exc : exn) (rest : socket) :
  Forall (fun c => 1 <= length c) chunks ->
  is_transient exc = true ->
  frame_incomplete (_read_buffer self ++ concat chunks) = true ->
  7 <= length (_read_buffer self ++ concat chunks)
  \/ raise_on_initial_eintr self = false ->
  read_frame self (map Recv chunks ++ RecvRaises exc :: rest)
  = read_frame self (map Recv chunks ++ rest).
Proof.
  intros Hne%nonempty_of_length Htr Hinc Hwhere. unfold read_frame.
  rewrite !read_frame_try_absorb by done.
  by rewrite read_frame_try_retry.
Qed.

Lemma read_frame_retries_inside_frame_witness :
  read_frame (sample_transport cls_TCPTransport true [])
    (map Recv [[x01; x00; x02; x00; x00; x00; x03]; [x61]]
       ++ RecvRaises (OSError (Some errno.EINTR) "Interrupted system call")
       :: [Recv [x62; x63]; Recv [xce]])
  = read_frame (sample_transport cls_TCPTransport true [])
      (map Recv [[x01; x00; x02; x00; x00; x00; x03]; [x61]]
         ++ [Recv [x62; x63]; Recv [xce]]).
Proof.
  apply read_frame_retries_inside_frame.
  - repeat constructor.
  - reflexivity.
  - reflexivity.
  - left. simpl. lia.
Defined.

(** X4.  With [raise_on_initial_eintr] set, an interrupted call or a
    try-again that comes before the header is complete goes through
    [read_frame] with [connected] as it was and the bytes of the header
    received so far kept in the buffer, so that the next [read_frame]
    goes on where this one stopped. *)
Theorem read_frame_interrupt_before_header (self : transport)
    (chunks : list bytes) (exc : exn) (rest : socket) :
  Forall (fun c => 1 <= length c) chunks ->
  is_transient exc = true -> is_SSLError exc = false ->
  raise_on_initial_eintr self = true ->
  length (_read_buffer self ++ concat chunks) < 7 ->
  read_frame self (map Recv chunks ++ RecvRaises exc :: rest)
  = Raises exc (set_read_buffer (_read_buffer self ++ concat chunks) self) rest
  /\ read_frame (set_read_buffer (_read_buffer self ++ concat chunks) self) rest
     = read_frame self (map Recv chunks ++ rest).
Proof.
  intros Hne%nonempty_of_length Htr Hssl Hflag Hshort.
  pose proof (frame_incomplete_short _ Hshort) as Hinc.
  destruct (transient_in_errnos (cls self) exc Htr) as [Hs He].
  destruct (transient_not_timeout exc Htr) as [Hto Hun].
  split.
  - unfold read_frame. rewrite read_frame_try_absorb by done.
    unfold read_frame_try. rewrite read_unfold. simpl cls.
    rewrite read_exact_raise; [|done|].
    + cbv beta iota zeta. rewrite Hto, Hs, Hssl, Hun. reflexivity.
    + simpl. rewrite Hflag. simpl. by rewrite andb_false_r.
  - unfold read_frame. by rewrite read_frame_try_absorb.
Qed.

Lemma read_frame_interrupt_before_header_witness :
  read_frame (sample_transport cls_TCPTransport true [])
    (map Recv [[x01; x00; x02]]
       ++ RecvRaises (OSError (Some errno.EINTR) "Interrupted system call")
       :: [Recv [x00; x00; x00; x03]])
  = Raises (OSError (Some errno.EINTR) "Interrupted system call")
      (sample_transport cls_TCPTransport true [x01; x00; x02])
      [Recv [x00; x00; x00; x03]]
  /\ read_frame (sample_transport cls_TCPTransport true [x01; x00; x02])
       [Recv [x00; x00; x00; x03]]
     = read_frame (sample_transport cls_TCPTransport true [])
         (map Recv [[x01; x00; x02]] ++ [Recv [x00; x00; x00; x03]]).
Proof.
  apply (read_frame_interrupt_before_header
           (sample_transport cls_TCPTransport true []) [[x01; x00; x02]]).
  - repeat constructor.
  - reflexivity.
  - reflexivity.
  - reflexivity.
  - simpl. lia.
Defined.

(** ** [to_host_port]: where the string is cut *)

Lemma split_last_app (sep : ascii) (h p : string) :
  contains_char sep p = false ->
  split_last sep (String.append h (String sep p)) = Some (h, p).
Proof.
  intros Hp.
  assert (split_last sep p = None) as Hnone.
  { pose proof (split_last_contains sep p) as [_ H].
    destruct (split_last sep p); [|done].
    rewrite H in Hp by by eexists. done. }
  induction h as [|ch h IH]; simpl.
  - by rewrite Hnone, Ascii.eqb_refl.
  - by rewrite IH.
Qed.

Lemma contains_char_app (sep : ascii) (h p : string) :
  contains_char sep (String.append h (String sep p)) = true.
Proof.
  induction h as [|ch h IH]; simpl.
  - by rewrite Ascii.eqb_refl.
  - by rewrite IH, orb_true_r.
Qed.

(** X5.  A host string that is no bracketed literal is cut at its last
    colon: what stands before is the host, what stands after goes to
    [int], whose failure is the failure of [to_host_port].  (So a bare
    IPv6 address loses its last group to the port.) *)
Theorem to_host_port_cuts_at_last_colon (int : string -> option Z)
    (h p : string) (default : Z) :
  IPV6_LITERAL_match (String.append h (String ":" p)) = None ->
  contains_char ":" p = false ->
  to_host_port int (String.append h (String ":" p)) default
  = match int p with
    | Some n => Ok (h, Some n)
    | None => Error (ValueError p)
    end.
Proof.
  intros Hm Hp. unfold to_host_port. rewrite Hm.
  rewrite contains_char_app. unfold rsplit1.
  by rewrite split_last_app.
Qed.

Lemma to_host_port_cuts_at_last_colon_witness :
  to_host_port int_of_digits (String.append "fe80:" (String ":" "1"))
    AMQP_PORT
  = match int_of_digits "1" with
    | Some n => Ok ("fe80:"%string, Some n)
    | None => Error (ValueError "1")
    end.
Proof.
  apply to_host_port_cuts_at_last_colon.
  - reflexivity.
  - reflexivity.
Defined.

Lemma span_app (p : ascii -> bool) (a b : string) :
  string_forall p a = true -> starts_with p b = false ->
  span p (String.append a b) = (a, b).
Proof.
  intros Ha Hb. induction a as [|ch a IH]; simpl in *.
  - destruct b as [|c b]; [done|]. simpl in *. by rewrite Hb.
  - apply andb_prop in Ha as [Hc Ha]. by rewrite Hc, IH.
Qed.

(** X6.  A bracketed literal never makes [to_host_port] fail (with an
    [int] that reads decimal digits): the host is what stands between
    the brackets; the port is the run of digits after ["]:"] when there
    is one, and there is none otherwise; whatever else follows the
    bracket, or the digits, is dropped without a word. *)
Theorem to_host_port_bracketed (int : string -> option Z)
    (lit tail : string) (default : Z) :
  reads_decimal int ->
  lit <> EmptyString -> string_forall is_literal_char lit = true ->
  (forall digits junk,
     tail = String ":" (String.append digits junk) ->
     digits <> EmptyString -> all_digits digits = true ->
     starts_with is_digit junk = false ->
     to_host_port int (String "[" (String.append lit (String "]" tail)))
       default
     = Ok (lit, Some (decimal digits)))
  /\
  (starts_with (fun c => Ascii.eqb c ":") tail = false
   \/ (exists junk, tail = String ":" junk /\ starts_with is_digit junk = false) ->
   to_host_port int (String "[" (String.append lit (String "]" tail))) default
   = Ok (lit, None)).
Proof.
  intros Hint Hne Hlit.
  assert (span is_literal_char (String.append lit (String "]" tail))
          = (lit, String "]" tail)) as Hspan by by apply span_app.
  split.
  - intros digits junk -> Hd Hall Hjunk. unfold to_host_port.
    unfold IPV6_LITERAL_match. rewrite Hspan.
    destruct lit as [|l0 lit]; [done|].
    assert (span is_digit (String.append digits junk) = (digits, junk)) as ->.
    { apply span_app; [|done]. clear -Hall.
      induction digits as [|d digits IH]; [done|]. simpl in *.
      apply andb_prop in Hall as [-> Hall]. by rewrite IH. }
    destruct digits as [|d0 digits]; [done|].
    by rewrite Hint.
  - intros Htail. unfold to_host_port, IPV6_LITERAL_match. rewrite Hspan.
    destruct lit as [|l0 lit]; [done|].
    destruct Htail as [Hnc|(junk & -> & Hj)].
    + destruct tail as [|c0 tail]; [done|]. simpl in Hnc.
      destruct (Ascii.eqb_spec c0 ":") as [->|Hc]; [done|].
      destruct c0 as [[] [] [] [] [] [] [] []]; try done.
    + destruct junk as [|j0 junk]; [done|]. simpl in *. by rewrite Hj.
Qed.

Lemma to_host_port_bracketed_witness :
  to_host_port int_of_digits
    (String "[" (String.append "::1" (String "]" ":5672/vhost"))) AMQP_PORT
  = Ok ("::1"%string, Some (decimal "5672"))
  /\ to_host_port int_of_digits
       (String "[" (String.append "::1" (String "]" ":amqp"))) AMQP_PORT
     = Ok ("::1"%string, None).
Proof.
  split.
  - apply (proj1 (to_host_port_bracketed int_of_digits "::1" ":5672/vhost"
                    AMQP_PORT int_of_digits_reads_decimal
                    ltac:(discriminate) eq_refl) "5672" "/vhost").
    + reflexivity.
    + discriminate.
    + reflexivity.
    + reflexivity.
  - apply (proj2 (to_host_port_bracketed int_of_digits "::1" ":amqp"
                    AMQP_PORT int_of_digits_reads_decimal
                    ltac:(discriminate) eq_refl)).
    right. exists "amqp"%string. split; reflexivity.
Defined.

(** ** [_set_socket_options]: the socket afterwards *)

Lemma setsockopt_all (l : list (Z * Z)) (sock : sockopts) (k : Z) :
  NoDup l.*1 ->
  getsockopt k (foldl (fun s '(opt, val) => setsockopt opt val s) sock l)
  = default (getsockopt k sock) ((list_to_map l : gmap Z Z) !! k).
Proof.
  revert sock. induction l as [|[o v] l IH]; intros sock Hnd; [done|].
  apply NoDup_cons in Hnd as [Ho Hnd]. simpl. rewrite IH by done.
  unfold getsockopt, setsockopt. destruct (decide (k = o)) as [->|Hne].
  - rewrite lookup_insert_eq.
    by rewrite (not_elem_of_list_to_map_1 (M := gmap Z)).
  - by rewrite lookup_insert_ne.
Qed.

(** X7.  What [_set_socket_options] does to the socket, on a platform
    that has [socket.TCP_NODELAY].  With settings, the options the caller
    names take the values the caller gives and every other option,
    no-delay too, keeps the value it had; without settings ([None] or
    the empty dictionary) no-delay becomes 1 and nothing else changes. *)
Theorem set_socket_options_effect (platform : gmap string Z)
    (TCP_NODELAY : Z) (settings : option (gmap Z Z)) (sock : sockopts) :
  platform !! "TCP_NODELAY"%string = Some TCP_NODELAY ->
  exists sock',
    _AbstractTransport._set_socket_options platform settings sock = Ok sock'
    /\ forall k,
         getsockopt k sock'
         = if settings_given settings
           then default (getsockopt k sock) (default ∅ settings !! k)
           else if decide (k = TCP_NODELAY) then 1%Z else getsockopt k sock.
Proof.
  intros Hnd. unfold _AbstractTransport._set_socket_options.
  destruct (settings_given settings); simpl.
  - rewrite (merged_tcp_opts_eq _ _ _ TCP_NODELAY) by done.
    eexists. split; [reflexivity|]. intros k.
    rewrite setsockopt_all by apply NoDup_fst_map_to_list.
    rewrite list_to_map_to_list.
    destruct (default ∅ settings !! k) as [v|] eqn:Hk.
    + by rewrite (lookup_union_Some_l _ _ _ v).
    + rewrite lookup_union_r by done. rewrite lookup_tcp_socket_defaults.
      by destruct (decide (k ∈ TCP_OPTS platform)).
  - rewrite Hnd. eexists. split; [reflexivity|]. done.
Qed.

Lemma set_socket_options_effect_witness :
  exists sock',
    _AbstractTransport._set_socket_options linux_socket_module
      (Some keepidle_settings) fresh_sockopts = Ok sock'
    /\ forall k,
         getsockopt k sock'
         = if settings_given (Some keepidle_settings)
           then default (getsockopt k fresh_sockopts)
                  (default ∅ (Some keepidle_settings) !! k)
           else if decide (k = 1%Z) then 1%Z else getsockopt k fresh_sockopts.
Proof.
  apply (set_socket_options_effect linux_socket_module 1).
  reflexivity.
Defined.

(** ** The factory and the constructors *)

(** X8.  What [Transport] builds.  It fails exactly when [to_host_port]
    fails on the host string, with the same exception.  Otherwise the
    instance is an [SSLTransport] when [ssl] is true and a
    [TCPTransport] when it is false, the empty dictionary included; it
    is [connected] before any connection is made, its buffer is empty,
    its host and port are those [to_host_port] gives, and it has
    [sslopts] only when [ssl] is a non-empty dictionary. *)
Theorem transport_factory_result (int : string -> option Z) (hoststr : string)
    (ct : option Z) (ssl : pyobj) (rt wt : option Z)
    (ss : option (gmap Z Z)) (flag : bool) :
  match to_host_port int hoststr AMQP_PORT with
  | Error e => Transport int hoststr ct ssl rt wt ss flag = Error e
  | Ok (h, p) =>
      exists self,
        Transport int hoststr ct ssl rt wt ss flag = Ok self
        /\ cls self
           = (if truthy ssl then cls_SSLTransport else cls_TCPTransport)
        /\ connected self = true /\ _read_buffer self = []
        /\ (host self, port self) = (h, p)
        /\ sslopts self
           = match ssl with
             | PyDict (kv :: d) => Some (kv :: d)
             | _ => None
             end
  end.
Proof.
  unfold Transport, SSLTransport.__init__, _AbstractTransport.__init__.
  destruct (to_host_port int hoststr AMQP_PORT) as [[h p]|e].
  - destruct (truthy ssl) eqn:Ht.
    + eexists. split; [reflexivity|]. simpl.
      repeat (split; [done|]). by destruct ssl as [| | | |[|kv d]|].
    + eexists. split; [reflexivity|]. simpl.
      repeat (split; [done|]). by destruct ssl as [| | | |[|kv d]|].
  - by destruct (truthy ssl).
Qed.

(** ** [having_timeout] *)

(** X9.  The timeout of the socket after a [with having_timeout] block.
    When the block leaves the timeout of the socket as it finds it, the
    statement leaves it as it was before, however the block ends, by a
    value or by an exception; and when a timeout is given that differs
    from the one the socket had, the statement puts the old one back
    even after a block that has changed it. *)
Theorem having_timeout_restores (A : Type) (timeout : option Z)
    (block : timed_block A) (sock : option Z) (r : result A)
    (sock' : option Z) :
  having_timeout timeout block sock = Some (r, sock') ->
  ((forall s r0 s', block s = Some (r0, s') -> s' = s) -> sock' = sock)
  /\ (timeout <> None -> timeout <> sock -> sock' = sock).
Proof.
  unfold having_timeout. destruct timeout as [t|].
  - destruct (decide (sock <> Some t)) as [Hne|Heq].
    + destruct (block (Some t)) as [[r0 s0]|] eqn:Hb; [|done].
      destruct (decide (Some t <> sock)) as [_|Hn]; [|by destruct Hn].
      by intros [= <- <-].
    + apply dec_stable in Heq as ->.
      destruct (block (Some t)) as [[r0 s0]|] eqn:Hb; [|done].
      destruct (decide (Some t <> Some t)) as [Hn|_]; [done|].
      intros [= <- <-]. split; [|done]. intros Hkeep. by eapply Hkeep.
  - intros Hb. split; [|done]. intros Hkeep. by eapply Hkeep.
Qed.

Lemma having_timeout_restores_witness :
  having_timeout (Some 5%Z)
    (fun s => Some (Error (OSError (Some 104%Z) "reset") : result unit, s))
    None
  = Some (Error (OSError (Some 104%Z) "reset"), None)
  /\ (None : option Z) = None.
Proof.
  split; [reflexivity|].
  apply (proj2 (having_timeout_restores unit (Some 5%Z)
                  (fun s => Some (Error (OSError (Some 104%Z) "reset"), s))
                  None (Error (OSError (Some 104%Z) "reset")) None eq_refl)).
  - discriminate.
  - discriminate.
Defined.

(** X10.  The exception that leaves a [with having_timeout] block.  With
    a timeout given, an [SSLError] whose text has ['timed out'] or ['The
    operation did not complete'] leaves as [socket.timeout]; any other
    exception leaves as it is, and so does a value.  With [None] for the
    timeout the statement is the block alone: such an [SSLError] leaves
    as the [SSLError] it is. *)
Theorem having_timeout_translates (A : Type) (timeout : option Z)
    (block : timed_block A) (sock : option Z) (r : result A) (s1 : option Z) :
  block (if decide (timeout = None) then sock
         else if decide (sock <> timeout) then timeout else sock)
  = Some (r, s1) ->
  exists sock',
    having_timeout timeout block sock
    = Some (match r with
            | Error exc =>
                if bool_decide (timeout <> None) && is_SSLError exc
                   && (str_contains "timed out" (exn_str exc)
                       || str_contains "The operation did not complete"
                            (exn_str exc))
                then Error SocketTimeout
                else Error exc
            | Ok a => Ok a
            end, sock').
Proof.
  unfold having_timeout. destruct timeout as [t|]; simpl.
  - intros ->. eexists. do 2 f_equal. destruct r as [a|exc]; [done|].
    destruct (is_SSLError exc); [|done]. simpl.
    by destruct (str_contains "timed out" (exn_str exc)),
         (str_contains "The operation did not complete" (exn_str exc)).
  - intros ->. eexists. do 2 f_equal. by destruct r.
Qed.

Lemma having_timeout_translates_witness :
  exists sock',
    having_timeout (Some 5%Z)
      (fun s =>
         Some (Error (SSLError None "The read operation timed out")
                 : result unit, s))
      None
    = Some (Error SocketTimeout, sock').
Proof.
  apply (having_timeout_translates unit (Some 5%Z)
           (fun s =>
              Some (Error (SSLError None "The read operation timed out"), s))
           None (Error (SSLError None "The read operation timed out"))
           (Some 5%Z)).
  reflexivity.
Defined.

(** ** [SSLTransport._write] and [write] *)

Lemma write_loop_nil (taken : bytes) (writes : list write_result) :
  write_loop [] taken writes = (LoopDone, taken, writes).
Proof. by destruct writes. Qed.

Lemma write_loop_chunks (counts : list nat) (s taken : bytes)
    (rest : list write_result) :
  Forall (fun n => 1 <= n) counts ->
  sum_list counts = length s ->
  write_loop s taken (map Wrote counts ++ rest) = (LoopDone, taken ++ s, rest).
Proof.
  intros Hpos. revert s taken.
  induction Hpos as [|n counts Hn _ IH]; intros s taken Hsum; simpl in *.
  - destruct s; [by rewrite write_loop_nil, app_nil_r|simpl in *; lia].
  - destruct s as [|b s]; [simpl in *; lia|].
    destruct n as [|n]; [lia|].
    rewrite IH.
    + by rewrite <- app_assoc, take_drop.
    + rewrite length_drop. simpl length in *. lia.
Qed.

(** What the loop has taken is a part of [s] from its start: all of it
    when the loop ends, not all of it when the loop raises. *)
Lemma write_loop_prefix (writes : list write_result) (s taken : bytes)
    ex taken' writes' :
  write_loop s taken writes = (ex, taken', writes') ->
  exists sent rest,
    s = sent ++ rest /\ taken' = taken ++ sent
    /\ (ex = LoopDone -> rest = [])
    /\ (forall e, ex = LoopRaise e ->
          rest <> []
          /\ (forall l, e <> ValueError l) /\ (forall a, e <> AttributeError a)).
Proof.
  revert s taken. induction writes as [|r writes IH]; intros s taken.
  - destruct s as [|b s]; simpl; intros [= <- <- <-].
    + exists [], []. by rewrite !app_nil_r.
    + exists [], (b :: s). by rewrite !app_nil_r.
  - destruct s as [|b s]; simpl.
    { intros [= <- <- <-]. exists [], []. by rewrite !app_nil_r. }
    assert (forall e,
              (forall l, e <> ValueError l) ->
              (forall a, e <> AttributeError a) ->
              (LoopRaise e, taken, writes) = (ex, taken', writes') ->
              exists sent rest,
                b :: s = sent ++ rest /\ taken' = taken ++ sent
                /\ (ex = LoopDone -> rest = [])
                /\ (forall e', ex = LoopRaise e' ->
                      rest <> [] /\ (forall l, e' <> ValueError l)
                      /\ (forall a, e' <> AttributeError a))) as Hstop.
    { intros e H1 H2 [= <- <- <-]. exists [], (b :: s).
      rewrite app_nil_r. do 3 (split; [done|]). by intros e0 [= <-]. }
    destruct r as [n|exc].
    + destruct n as [|n]; [by apply Hstop|].
      intros H. apply IH in H as (sent & rest & Hs & -> & Hd & Hr).
      exists (b :: take n s ++ sent), rest. split.
      * simpl in *. f_equal. rewrite <- app_assoc, <- Hs. by rewrite take_drop.
      * split; [|done]. simpl. by rewrite <- app_assoc.
    + destruct exc; by apply Hstop.
Qed.

(** X11.  A complete write over TLS.  When the successive calls of
    [sock.write] take at least one byte each and as many bytes in all as
    [s] has, [_write(s)] returns with the socket having taken exactly
    the bytes of [s], in order, after those it had taken before; and
    whenever [_write(s)] returns, that is so.  For an empty [s] no call
    is made. *)
Theorem ssl_write_sends_everything (s : bytes) (self : transport)
    (sock : out_socket) :
  (forall counts rest,
     Forall (fun n => 1 <= n) counts -> sum_list counts = length s ->
     out_writes sock = map Wrote counts ++ rest ->
     SSLTransportIO._write s self sock
     = Done tt self (mkOut (out_taken sock ++ s) rest))
  /\
  (forall self' sock',
     SSLTransportIO._write s self sock = Done tt self' sock' ->
     self' = self /\ out_taken sock' = out_taken sock ++ s)
  /\
  (s = [] -> SSLTransportIO._write s self sock = Done tt self sock).
Proof.
  unfold SSLTransportIO._write. split; [|split].
  - intros counts rest Hpos Hsum ->. by rewrite write_loop_chunks.
  - intros self' sock'.
    destruct (write_loop s (out_taken sock) (out_writes sock))
      as [[[] taken] writes] eqn:Hloop; try discriminate.
    intros [= <- <-].
    apply write_loop_prefix in Hloop as (sent & rest & -> & -> & Hd & _).
    rewrite (Hd eq_refl). by rewrite app_nil_r.
  - intros ->. rewrite write_loop_nil. by destruct sock.
Qed.

Lemma ssl_write_sends_everything_witness :
  SSLTransportIO._write [x61; x62; x63]
    (sample_transport cls_SSLTransport false [])
    (mkOut [x60] [Wrote 2; Wrote 1; Wrote 0])
  = Done tt (sample_transport cls_SSLTransport false [])
      (mkOut ([x60] ++ [x61; x62; x63]) [Wrote 0]).
Proof.
  apply (proj1 (ssl_write_sends_everything [x61; x62; x63]
                  (sample_transport cls_SSLTransport false [])
                  (mkOut [x60] [Wrote 2; Wrote 1; Wrote 0]))
           [2; 1] [Wrote 0]).
  - repeat constructor.
  - reflexivity.
  - reflexivity.
Defined.

(** X12.  A TLS peer that has gone.  When, before everything is written,
    a call of [sock.write] takes no byte, or raises [ValueError] or
    [AttributeError] (the session object has been torn down), [write]
    raises [IOError('Socket closed')] and sets [connected] to false; the
    socket has then taken the bytes of [s] that the calls before took
    and no other. *)
Theorem ssl_write_to_closed_peer (s : bytes) (self : transport)
    (sock : out_socket) (counts : list nat) (ev : write_result)
    (rest : list write_result) :
  Forall (fun n => 1 <= n) counts -> sum_list counts < length s ->
  ev = Wrote 0
  \/ (exists l, ev = WriteRaises (ValueError l))
  \/ (exists a, ev = WriteRaises (AttributeError a)) ->
  out_writes sock = map Wrote counts ++ ev :: rest ->
  write SSLTransportIO._write s self sock
  = Fails socket_closed (set_connected false self)
      (mkOut (out_taken sock ++ take (sum_list counts) s) rest).
Proof.
  intros Hpos Hsum Hev Hw. unfold write, SSLTransportIO._write. rewrite Hw.
  assert (write_loop s (out_taken sock) (map Wrote counts ++ ev :: rest)
          = (LoopRaise socket_closed,
             out_taken sock ++ take (sum_list counts) s, rest)) as ->; [|done].
  clear Hw. generalize (out_taken sock) as taken. revert s Hsum.
  induction Hpos as [|n counts Hn _ IH]; intros s Hsum taken; simpl in *.
  - destruct s as [|b s]; [simpl in *; lia|]. rewrite app_nil_r.
    by destruct Hev as [->|[[l ->]|[a ->]]].
  - destruct s as [|b s]; [simpl in *; lia|].
    destruct n as [|n]; [lia|].
    rewrite IH by (rewrite length_drop; simpl length in *; lia).
    by rewrite <- app_assoc, take_take_drop.
Qed.

Lemma ssl_write_to_closed_peer_witness :
  write SSLTransportIO._write [x61; x62; x63]
    (sample_transport cls_SSLTransport false [])
    (mkOut [] [Wrote 2; WriteRaises (ValueError "Write on closed or unwrapped SSL socket.")])
  = Fails socket_closed
      (set_connected false (sample_transport cls_SSLTransport false []))
      (mkOut ([] ++ take (sum_list [2]) [x61; x62; x63]) []).
Proof.
  apply (ssl_write_to_closed_peer [x61; x62; x63]
           (sample_transport cls_SSLTransport false [])
           (mkOut [] [Wrote 2; WriteRaises (ValueError "Write on closed or unwrapped SSL socket.")])
           [2]
           (WriteRaises (ValueError "Write on closed or unwrapped SSL socket."))
           []).
  - repeat constructor.
  - simpl. lia.
  - right. left. by eexists.
  - reflexivity.
Defined.

(** X13.  A failed [write] over TLS.  Whatever exception leaves [write],
    the socket has taken a part of [s] from its start, and not all of
    it; the exception is never a [ValueError] or an [AttributeError];
    nothing but [connected] changes in the transport, and [connected]
    becomes false exactly when the exception is an I/O error, no
    timeout, whose [errno] is not in [_UNAVAIL]. *)
Theorem ssl_write_failure (s : bytes) (self : transport) (sock : out_socket)
    (exc : exn) (self' : transport) (sock' : out_socket) :
  write SSLTransportIO._write s self sock = Fails exc self' sock' ->
  (exists sent rest,
     s = sent ++ rest /\ rest <> []
     /\ out_taken sock' = out_taken sock ++ sent)
  /\ (forall l, exc <> ValueError l) /\ (forall a, exc <> AttributeError a)
  /\ self'
     = (if is_socket_error exc && negb (is_timeout exc)
           && negb (errno_in (get_errno exc) _UNAVAIL)
        then set_connected false self else self).
Proof.
  unfold write, SSLTransportIO._write.
  destruct (write_loop s (out_taken sock) (out_writes sock))
    as [[[] taken] writes] eqn:Hloop; try discriminate.
  apply write_loop_prefix in Hloop as (sent & rest & -> & -> & _ & Hr).
  destruct (Hr e eq_refl) as (Hrest & Hv & Ha).
  assert (forall self1,
            @Fails out_socket unit e self1
              (mkOut (out_taken sock ++ sent) writes)
            = Fails exc self' sock' ->
            self1 = (if is_socket_error e && negb (is_timeout e)
                        && negb (errno_in (get_errno e) _UNAVAIL)
                     then set_connected false self else self) ->
            (exists sent0 rest0,
               sent ++ rest = sent0 ++ rest0 /\ rest0 <> []
               /\ out_taken sock' = out_taken sock ++ sent0)
            /\ (forall l, exc <> ValueError l)
            /\ (forall a, exc <> AttributeError a)
            /\ self'
               = (if is_socket_error exc && negb (is_timeout exc)
                     && negb (errno_in (get_errno exc) _UNAVAIL)
                  then set_connected false self else self)) as Hfin.
  { intros self1 [= <- <- <-] ->. split; [by exists sent, rest|done]. }
  destruct (is_timeout e) eqn:Hto.
  { intros H. apply (Hfin _ H). by rewrite andb_false_r. }
  destruct (is_socket_error e) eqn:Hse; [|by intros H; apply (Hfin _ H)].
  destruct (errno_in (get_errno e) _UNAVAIL);
    intros H; by apply (Hfin _ H).
Qed.

Lemma ssl_write_failure_witness :
  (exists sent rest,
     [x61; x62; x63] = sent ++ rest /\ rest <> []
     /\ out_taken (mkOut [x61; x62] []) = out_taken (mkOut [] []) ++ sent)
  /\ (forall l, SocketTimeout <> ValueError l)
  /\ (forall a, SocketTimeout <> AttributeError a)
  /\ sample_transport cls_SSLTransport false []
     = (if is_socket_error SocketTimeout && negb (is_timeout SocketTimeout)
           && negb (errno_in (get_errno SocketTimeout) _UNAVAIL)
        then set_connected false (sample_transport cls_SSLTransport false [])
        else sample_transport cls_SSLTransport false []).
Proof.
  apply (ssl_write_failure [x61; x62; x63]
           (sample_transport cls_SSLTransport false [])
           (mkOut [] [Wrote 2; WriteRaises SocketTimeout])
           SocketTimeout
           (sample_transport cls_SSLTransport false [])
           (mkOut [x61; x62] [])).
  reflexivity.
Defined.

(** ** [close] *)

(** X14.  A [close] that returns.  The transport then holds no socket
    and is not [connected]; a held socket has been unwrapped (a TLS
    socket of an [SSLTransport]), shut down and closed, in this order;
    and a second [close] makes no call on any socket, raises nothing
    and changes nothing. *)
Theorem close_is_idempotent (self : transport) (sock : option sock_object)
    (calls : list sock_call) (self' : transport)
    (sock' : option sock_object) (calls' : list sock_call) :
  close self sock calls = (None, self', sock', calls') ->
  sock' = None /\ self' = set_connected false self
  /\ calls'
     = calls
       ++ match sock with
          | Some so =>
              match cls self with
              | cls_SSLTransport =>
                  if has_unwrap so then [CallUnwrap] else []
              | cls_TCPTransport => []
              end ++ [CallShutdown; CallClose]
          | None => []
          end
  /\ close self' sock' calls' = (None, self', sock', calls').
Proof.
  unfold close, _shutdown_transport.
  destruct sock as [so|].
  - destruct (cls self).
    + destruct (shutdown_error so); [done|].
      destruct (close_error so); [done|].
      intros [= <- <- <-]. by rewrite <- app_assoc.
    + destruct (has_unwrap so).
      * destruct (unwrap_error so); [done|]. simpl.
        destruct (shutdown_error so); [done|].
        destruct (close_error so); [done|].
        intros [= <- <- <-]. by rewrite <- !app_assoc.
      * destruct (shutdown_error so); [done|].
        destruct (close_error so); [done|].
        intros [= <- <- <-]. by rewrite <- app_assoc.
  - intros [= <- <- <-]. by rewrite app_nil_r.
Qed.

Lemma close_is_idempotent_witness :
  close (sample_transport cls_SSLTransport false [])
    (Some (mkSock true None None None)) []
  = (None, set_connected false (sample_transport cls_SSLTransport false []),
     None, [CallUnwrap; CallShutdown; CallClose])
  /\ close (set_connected false (sample_transport cls_SSLTransport false []))
       None [CallUnwrap; CallShutdown; CallClose]
     = (None,
        set_connected false (sample_transport cls_SSLTransport false []),
        None, [CallUnwrap; CallShutdown; CallClose]).
Proof.
  split; [reflexivity|].
  apply (close_is_idempotent (sample_transport cls_SSLTransport false [])
           (Some (mkSock true None None None)) []).
  reflexivity.
Defined.

(** X15.  A [close] that raises.  When unwrapping, shutting down or
    closing the socket raises, [close] lets the exception go on with the
    transport as it was, [connected] included, and the socket still held;
    and unless it is [sock.close()] that raised, that call has not been
    made. *)
Theorem close_failure_keeps_socket (self : transport)
    (sock : option sock_object) (calls : list sock_call) (exc : exn)
    (self' : transport) (sock' : option sock_object)
    (calls' : list sock_call) :
  close self sock calls = (Some exc, self', sock', calls') ->
  self' = self
  /\ exists so added,
       sock' = Some so /\ calls' = calls ++ added
       /\ (CallClose ∈ added -> close_error so = Some exc).
Proof.
  unfold close, _shutdown_transport.
  destruct sock as [so|]; [|done].
  assert (forall so0 base,
            (exists pre, base = calls ++ pre /\ CallClose ∉ pre) ->
            match shutdown_error so0 with
            | Some exc0 => (Some exc0, self, Some so0, base ++ [CallShutdown])
            | None =>
                match close_error so0 with
                | Some exc0 =>
                    (Some exc0, self, Some so0,
                     (base ++ [CallShutdown]) ++ [CallClose])
                | None =>
                    (None, set_connected false self, None,
                     (base ++ [CallShutdown]) ++ [CallClose])
                end
            end = (Some exc, self', sock', calls') ->
            self' = self
            /\ exists so1 added,
                 sock' = Some so1 /\ calls' = calls ++ added
                 /\ (CallClose ∈ added -> close_error so1 = Some exc)) as Hend.
  { intros so0 base (pre & -> & Hpre).
    destruct (shutdown_error so0) as [e1|].
    - intros [= <- <- <- <-]. split; [done|].
      exists so0, (pre ++ [CallShutdown]). rewrite app_assoc.
      do 2 (split; [done|]). rewrite elem_of_app, list_elem_of_singleton.
      intros [?|?]; done.
    - destruct (close_error so0) as [e2|] eqn:Hce; [|done].
      intros [= <- <- <- <-]. split; [done|].
      exists so0, (pre ++ [CallShutdown; CallClose]).
      split; [done|]. split; [|done].
      by rewrite <- !app_assoc. }
  destruct (cls self).
  - apply Hend. exists []. rewrite app_nil_r. split; [done|].
    apply not_elem_of_nil.
  - destruct (has_unwrap so).
    + destruct (unwrap_error so) as [e0|].
      * intros [= <- <- <- <-]. split; [done|].
        exists so, [CallUnwrap]. do 2 (split; [done|]).
        rewrite list_elem_of_singleton. done.
      * apply Hend. exists [CallUnwrap]. split; [done|].
        rewrite list_elem_of_singleton. done.
    + apply Hend. exists []. rewrite app_nil_r. split; [done|].
      apply not_elem_of_nil.
Qed.

Lemma close_failure_keeps_socket_witness :
  close (sample_transport cls_TCPTransport false [])
    (Some (mkSock false None (Some (OSError (Some 107%Z) "not connected"))
             None)) []
  = (Some (OSError (Some 107%Z) "not connected"),
     sample_transport cls_TCPTransport false [],
     Some (mkSock false None (Some (OSError (Some 107%Z) "not connected"))
             None),
     [CallShutdown])
  /\ sample_transport cls_TCPTransport false []
     = sample_transport cls_TCPTransport false [].
Proof.
  split; [reflexivity|].
  apply (close_failure_keeps_socket
           (sample_transport cls_TCPTransport false [])
           (Some (mkSock false None
                    (Some (OSError (Some 107%Z) "not connected")) None))
           [] (OSError (Some 107%Z) "not connected")
           (sample_transport cls_TCPTransport false [])
           (Some (mkSock false None
                    (Some (OSError (Some 107%Z) "not connected")) None))
           [CallShutdown]).
  reflexivity.
Defined.

(** ** [_connect] *)

Lemma connect_attempt_unreachable (timeout : option Z) (i : nat)
    (res : candidate) (held : option nat) (calls : list connect_call) :
  unreachable res ->
  exists exc,
    connect_error res = Some exc /\ is_socket_error exc = true
    /\ connect_attempt timeout i res held calls
       = (Some exc, Some i,
          calls ++ [Created i]
            ++ (if cloexec_implemented res then [SetCloexec i] else [])
            ++ [SetTimeout i timeout; ConnectTo i]).
Proof.
  intros (Hc & exc & He & Hs). exists exc. unfold connect_attempt.
  by rewrite Hc, He.
Qed.

Lemma failed_calls_app (timeout : option Z) (i : nat) (res : candidate)
    (calls : list connect_call) :
  (calls ++ [Created i]
     ++ (if cloexec_implemented res then [SetCloexec i] else [])
     ++ [SetTimeout i timeout; ConnectTo i]) ++ [Closed i]
  = calls ++ failed_calls timeout i res.
Proof.
  unfold failed_calls. destruct (cloexec_implemented res); simpl;
    by rewrite <- app_assoc.
Qed.

(** Entries that cannot be reached, with more entries after them, are
    passed over, each socket being closed. *)
Lemma connect_loop_skips (timeout : option Z) (failed rest : list candidate)
    (i : nat) (held : option nat) (calls : list connect_call) :
  Forall unreachable failed -> failed <> [] -> rest <> [] ->
  connect_loop timeout i (failed ++ rest) held calls
  = connect_loop timeout (i + length failed) rest None
      (calls ++ all_failed_calls timeout i failed).
Proof.
  intros Hf. revert i held calls.
  induction Hf as [|res failed Hres Hf IH]; intros i held calls Hne Hrest;
    [done|].
  destruct (connect_attempt_unreachable timeout i res held calls Hres)
    as (exc & He & Hs & Hatt).
  simpl. rewrite Hatt, Hs, failed_calls_app.
  destruct failed as [|res' failed].
  - simpl. rewrite app_nil_r, Nat.add_1_r.
    destruct rest; [done|reflexivity].
  - change ((res' :: failed) ++ rest) with (res' :: (failed ++ rest)) at 1.
    cbv iota. change (res' :: (failed ++ rest))
      with ((res' :: failed) ++ rest).
    rewrite IH by done. rewrite <- app_assoc. f_equal.
    simpl length. lia.
Qed.

(** X16.  The first entry that can be reached.  When connecting fails
    with a [socket.error] for the entries before it, [_connect] ends
    with the socket of the first entry for which it succeeds; it has
    created, tried and closed one socket for each entry before, in order,
    and makes no call for the entries after. *)
Theorem connect_takes_first_reachable (timeout : option Z)
    (failed : list candidate) (ok : candidate) (later : list candidate)
    (held : option nat) (calls : list connect_call) :
  Forall unreachable failed ->
  create_error ok = None -> connect_error ok = None ->
  _connect (Ok (failed ++ ok :: later)) timeout held calls
  = (None, Some (length failed),
     calls ++ all_failed_calls timeout 0 failed
       ++ [Created (length failed)]
       ++ (if cloexec_implemented ok then [SetCloexec (length failed)] else [])
       ++ [SetTimeout (length failed) timeout; ConnectTo (length failed)]).
Proof.
  intros Hf Hc He. unfold _connect.
  assert (forall i held calls,
            connect_loop timeout i (ok :: later) held calls
            = (None, Some i,
               calls ++ [Created i]
                 ++ (if cloexec_implemented ok then [SetCloexec i] else [])
                 ++ [SetTimeout i timeout; ConnectTo i])) as Hok.
  { intros i h c. simpl. unfold connect_attempt. by rewrite Hc, He. }
  destruct failed as [|res failed].
  - change ([] ++ ok :: later) with (ok :: later). rewrite Hok. reflexivity.
  - rewrite connect_loop_skips by done. rewrite Hok.
    by rewrite <- app_assoc.
Qed.

Lemma connect_takes_first_reachable_witness :
  _connect
    (Ok ([mkCandidate None true (Some (OSError (Some 111%Z) "refused"))]
           ++ mkCandidate None true None
           :: [mkCandidate None true None]))
    (Some 3%Z) None []
  = (None, Some 1,
     [Created 0; SetCloexec 0; SetTimeout 0 (Some 3%Z); ConnectTo 0; Closed 0;
      Created 1; SetCloexec 1; SetTimeout 1 (Some 3%Z); ConnectTo 1]).
Proof.
  apply (connect_takes_first_reachable (Some 3%Z)
           [mkCandidate None true (Some (OSError (Some 111%Z) "refused"))]
           (mkCandidate None true None) [mkCandidate None true None] None []).
  - repeat constructor. by eexists.
  - reflexivity.
  - reflexivity.
Defined.

(** X17.  No entry can be reached.  When connecting fails with a
    [socket.error] for every entry, [_connect] raises the exception of
    the last entry, every socket it created is closed and the transport
    holds none; for an empty list of entries it returns without a
    socket and without an exception. *)
Theorem connect_raises_last_error (timeout : option Z)
    (entries : list candidate) (held : option nat)
    (calls : list connect_call) :
  Forall unreachable entries ->
  _connect (Ok entries) timeout held calls
  = (match last entries with
     | Some res => connect_error res
     | None => None
     end,
     match entries with [] => held | _ => None end,
     calls ++ all_failed_calls timeout 0 entries).
Proof.
  intros Hf. unfold _connect. generalize 0 as i. revert held calls.
  induction Hf as [|res entries Hres Hf IH]; intros held calls i.
  - simpl. by rewrite app_nil_r.
  - destruct (connect_attempt_unreachable timeout i res held calls Hres)
      as (exc & He & Hs & Hatt).
    simpl connect_loop. rewrite Hatt, Hs, failed_calls_app.
    destruct entries as [|res' entries].
    + simpl. by rewrite He, app_nil_r.
    + rewrite IH.
      change (all_failed_calls timeout i (res :: res' :: entries))
        with (failed_calls timeout i res
                ++ all_failed_calls timeout (S i) (res' :: entries)).
      rewrite app_assoc. reflexivity.
Qed.

Lemma connect_raises_last_error_witness :
  _connect
    (Ok [mkCandidate None false (Some (OSError (Some 111%Z) "refused"));
         mkCandidate None false (Some SocketTimeout)])
    (Some 3%Z) None []
  = (Some SocketTimeout, None,
     [Created 0; SetTimeout 0 (Some 3%Z); ConnectTo 0; Closed 0;
      Created 1; SetTimeout 1 (Some 3%Z); ConnectTo 1; Closed 1]).
Proof.
  apply (connect_raises_last_error (Some 3%Z)
           [mkCandidate None false (Some (OSError (Some 111%Z) "refused"));
            mkCandidate None false (Some SocketTimeout)] None []).
  repeat constructor; by eexists.
Defined.

(** X18.  A socket that cannot be created.  When [socket.socket] raises
    a [socket.error] for an entry while the transport holds no socket
    (none before the call, or the one of the entry before just closed),
    the handler calls [close] on [None]: [_connect] raises
    [AttributeError] in place of the [socket.error] and tries no entry
    after. *)
Theorem connect_create_error_is_masked (timeout : option Z)
    (failed : list candidate) (bad : candidate) (later : list candidate)
    (exc : exn) (held : option nat) (calls : list connect_call) :
  Forall unreachable failed ->
  create_error bad = Some exc -> is_socket_error exc = true ->
  failed <> [] \/ held = None ->
  _connect (Ok (failed ++ bad :: later)) timeout held calls
  = (Some (AttributeError "close"), None,
     calls ++ all_failed_calls timeout 0 failed).
Proof.
  intros Hf Hc Hs Hheld. unfold _connect.
  assert (forall i calls,
            connect_loop timeout i (bad :: later) None calls
            = (Some (AttributeError "close"), None, calls)) as Hbad.
  { intros i c. simpl. unfold connect_attempt. by rewrite Hc, Hs. }
  destruct failed as [|res failed].
  - destruct Hheld as [?| ->]; [done|].
    change ([] ++ bad :: later) with (bad :: later). rewrite Hbad.
    simpl. by rewrite app_nil_r.
  - rewrite connect_loop_skips by done. by rewrite Hbad.
Qed.

Lemma connect_create_error_is_masked_witness :
  _connect
    (Ok ([] ++ mkCandidate (Some (OSError (Some 97%Z) "family not supported"))
                 true None
            :: [mkCandidate None true None]))
    None None []
  = (Some (AttributeError "close"), None, [] ++ all_failed_calls None 0 []).
Proof.
  apply (connect_create_error_is_masked None []
           (mkCandidate (Some (OSError (Some 97%Z) "family not supported"))
              true None)
           [mkCandidate None true None]
           (OSError (Some 97%Z) "family not supported") None []).
  - constructor.
  - reflexivity.
  - reflexivity.
  - by right.
Defined.

(** ** [_init_socket] *)

Lemma set_socket_options_succeeds (platform : gmap string Z)
    (TCP_NODELAY : Z) (settings : option (gmap Z Z)) (sock : sockopts) :
  platform !! "TCP_NODELAY"%string = Some TCP_NODELAY ->
  exists sock',
    _AbstractTransport._set_socket_options platform settings sock = Ok sock'.
Proof.
  intros Hnd. unfold _AbstractTransport._set_socket_options.
  destruct (settings_given settings); simpl.
  - rewrite (merged_tcp_opts_eq _ _ _ TCP_NODELAY) by done. by eexists.
  - rewrite Hnd. by eexists.
Qed.

Lemma pack_timeout_fits (interval : option seconds) :
  pack_timeout interval <> Error StructError ->
  exists packed, pack_timeout interval = Ok packed.
Proof.
  unfold pack_timeout. destruct interval as [[t|m e]|]; [| |by eexists].
  - destruct ((- 2 ^ 63 <=? t)%Z && (t <? 2 ^ 63)%Z); [by eexists|done].
  - done.
Qed.

Lemma pack_timeout_int (interval : option Z) :
  (forall t, interval = Some t -> (- 2 ^ 63 <= t < 2 ^ 63)%Z) ->
  pack_timeout (option_map IntSeconds interval)
  = Ok (option_map (fun t => (t, 0%Z)) interval).
Proof.
  intros H. destruct interval as [t|]; [|done]. simpl.
  specialize (H t eq_refl).
  destruct (Z.leb_spec (- 2 ^ 63) t); [|lia].
  destruct (Z.ltb_spec t (2 ^ 63)); [done|lia].
Qed.

Lemma setup_with_sslopts (self : transport) (d : list (string * pyobj))
    (peer : tls_peer) (tls : option tls_session) :
  sslopts self = Some d ->
  wrap_error peer = None -> handshake_error peer = None ->
  (forall x, dict_get "context" d = Some x ->
             truthy x = true -> is_dict x = true) ->
  exists session,
    SSLTransport._setup_transport self peer tls = (None, Some session)
    /\ tls_handshake_done session = true.
Proof.
  intros Hs Hw Hh Hctx. unfold SSLTransport._setup_transport.
  rewrite Hs. cbv zeta.
  assert (match d with [] => [] | _ => d end = d) as -> by by destruct d.
  unfold SSLTransport._wrap_socket.
  destruct (dict_get "context" d) as [x|] eqn:Hx; simpl.
  - destruct (truthy x) eqn:Ht.
    + specialize (Hctx x eq_refl Ht). destruct x; try discriminate.
      unfold SSLTransport._wrap_context, SSLTransport.wrap.
      rewrite Hw, Hh. by eexists.
    + unfold SSLTransport.wrap. rewrite Hw, Hh. by eexists.
  - unfold SSLTransport.wrap. rewrite Hw, Hh. by eexists.
Qed.

(** X19.  An exception that leaves [_init_socket], for hooks that leave
    [connected] alone.  [connected] is then false when the exception is
    an I/O error whose [errno] is not in [_UNAVAIL], a timeout included,
    and as it was for any other exception; the socket has been put back
    to blocking mode with keep-alive on. *)
Theorem init_socket_failure (L : Type) (platform : gmap string Z)
    (setup : transport -> L -> option exn * transport * L)
    (_write : bytes -> transport -> L -> effect L unit)
    (self : transport) (ss : option (gmap Z Z)) (rt wt : option seconds)
    (sock : os_socket L) (exc : exn) (self' : transport)
    (sock' : os_socket L) :
  (forall s l e s' l', setup s l = (e, s', l') -> connected s' = connected s) ->
  (forall b s l e s' l',
     _write b s l = Fails e s' l' -> connected s' = connected s) ->
  _init_socket platform setup _write self ss rt wt sock
  = Fails exc self' sock' ->
  connected self'
  = (if is_socket_error exc && negb (errno_in (get_errno exc) _UNAVAIL)
     then false else connected self)
  /\ so_timeout sock' = None /\ so_keepalive sock' = 1%Z.
Proof.
  intros Hsetup Hwrite. unfold _init_socket.
  destruct (init_socket_try platform setup _write self ss rt wt sock)
    as [a s1 k1|e s1 k1|] eqn:Htry; try done.
  assert (connected s1 = connected self
          /\ so_timeout k1 = None /\ so_keepalive k1 = 1%Z) as (Hc & Ht & Hk).
  { revert Htry. unfold init_socket_try. cbv zeta.
    destruct (_AbstractTransport._set_socket_options _ _ _) as [tcp|e0];
      [|by intros [= <- <- <-]].
    destruct (pack_timeout wt) as [snd|e0]; [|by intros [= <- <- <-]].
    destruct (pack_timeout rt) as [rcv|e0]; [|by intros [= <- <- <-]].
    simpl.
    destruct (setup self (so_layer sock)) as [[[e0|] s2] l2] eqn:Hs.
    - intros [= <- <- <-]. split; [by eapply Hsetup|done].
    - destruct (_write AMQP_PROTOCOL_HEADER s2 l2) as [a s3 l3|e3 s3 l3|]
        eqn:Hw; try done.
      intros [= <- <- <-]. split; [|done].
      rewrite (Hwrite _ _ _ _ _ _ Hw). by eapply Hsetup. }
  destruct (is_socket_error e) eqn:Hio.
  - destruct (errno_in (get_errno e) _UNAVAIL) eqn:Hun; simpl;
      intros [= <- <- <-]; by rewrite Hio, Hun.
  - intros [= <- <- <-]. by rewrite Hio.
Qed.

Lemma ssl_hooks_keep_connected (peer : tls_peer) :
  (forall s l e s' l',
     ssl_setup_hook peer s l = (e, s', l') -> connected s' = connected s)
  /\ (forall b s l e s' l',
        ssl_write_hook b s l = Fails e s' l' -> connected s' = connected s).
Proof.
  split.
  - intros s l e s' l'. unfold ssl_setup_hook.
    destruct (SSLTransport._setup_transport s peer l.1). by intros [= <- <-].
  - intros b s l e s' l'. unfold ssl_write_hook, SSLTransportIO._write.
    destruct (write_loop b (out_taken l.2) (out_writes l.2)) as [[[] ?] ?];
      try done.
    by intros [= <- <-].
Qed.

Lemma init_socket_failure_witness :
  _init_socket linux_socket_module
    (ssl_setup_hook (mkPeer None (Some SocketTimeout))) ssl_write_hook
    (set_sslopts (Some []) (sample_transport cls_SSLTransport false []))
    None None None
    (mkOS (Some 3%Z) 0%Z None None fresh_sockopts (None, mkOut [] []))
  = Fails SocketTimeout
      (set_connected false
         (set_sslopts (Some []) (sample_transport cls_SSLTransport false [])))
      (mkOS None 1%Z None None (setsockopt 1 1 fresh_sockopts)
         (Some (mkSession None [] false), mkOut [] []))
  /\ connected
       (set_connected false
          (set_sslopts (Some []) (sample_transport cls_SSLTransport false [])))
     = false.
Proof.
  split; [reflexivity|].
  apply (init_socket_failure _ linux_socket_module
           (ssl_setup_hook (mkPeer None (Some SocketTimeout))) ssl_write_hook
           (set_sslopts (Some []) (sample_transport cls_SSLTransport false []))
           None None None
           (mkOS (Some 3%Z) 0%Z None None fresh_sockopts (None, mkOut [] []))
           SocketTimeout _
           (mkOS None 1%Z None None (setsockopt 1 1 fresh_sockopts)
              (Some (mkSession None [] false), mkOut [] []))).
  - apply (ssl_hooks_keep_connected (mkPeer None (Some SocketTimeout))).
  - apply (ssl_hooks_keep_connected (mkPeer None (Some SocketTimeout))).
  - reflexivity.
Defined.

(** X20.  A secure transport without [sslopts].  On a platform that has
    [socket.TCP_NODELAY] and with timeouts that fit a C long,
    [_init_socket] of an [SSLTransport] whose [sslopts] was never
    assigned raises [AttributeError] and leaves the transport as it was,
    [connected] too; the socket is not wrapped and no byte of the
    protocol header is sent. *)
Theorem init_socket_without_sslopts (platform : gmap string Z)
    (TCP_NODELAY : Z) (peer : tls_peer) (self : transport)
    (ss : option (gmap Z Z)) (rt wt : option seconds)
    (sock : os_socket (option tls_session * out_socket)) :
  platform !! "TCP_NODELAY"%string = Some TCP_NODELAY ->
  pack_timeout rt <> Error StructError ->
  pack_timeout wt <> Error StructError ->
  sslopts self = None ->
  exists sock',
    _init_socket platform (ssl_setup_hook peer) ssl_write_hook self ss rt wt
      sock
    = Fails (AttributeError "sslopts") self sock'
    /\ so_layer sock' = so_layer sock.
Proof.
  intros Hnd Hrt Hwt Hs. unfold _init_socket, init_socket_try. cbv zeta.
  destruct (set_socket_options_succeeds platform TCP_NODELAY ss
              (so_tcp (mkOS None 1%Z (so_sndtimeo sock) (so_rcvtimeo sock)
                         (so_tcp sock) (so_layer sock))) Hnd)
    as (tcp & ->).
  destruct (pack_timeout_fits wt Hwt) as (snd & ->).
  destruct (pack_timeout_fits rt Hrt) as (rcv & ->).
  simpl. unfold ssl_setup_hook. simpl.
  rewrite setup_without_sslopts by done. simpl.
  destruct sock as [? ? ? ? ? [tls out]]. simpl. by eexists.
Qed.

Lemma init_socket_without_sslopts_witness :
  exists sock',
    _init_socket linux_socket_module (ssl_setup_hook (mkPeer None None))
      ssl_write_hook (sample_transport cls_SSLTransport false [])
      None (Some (IntSeconds 5)) None
      (mkOS (Some 3%Z) 0%Z None None fresh_sockopts (None, mkOut [] []))
    = Fails (AttributeError "sslopts")
        (sample_transport cls_SSLTransport false []) sock'
    /\ so_layer sock'
       = so_layer
           (mkOS (Some 3%Z) 0%Z None None fresh_sockopts (None, mkOut [] [])).
Proof.
  apply (init_socket_without_sslopts linux_socket_module 1).
  - reflexivity.
  - discriminate.
  - discriminate.
  - reflexivity.
Defined.

(** X21.  A secure connection set up.  Assume: the platform has
    [socket.TCP_NODELAY]; the read and write timeouts are [None] or
    integers that fit a C long; [sslopts] of the [SSLTransport] is a
    dictionary whose [context] entry, if there is one and it is true, is
    a dictionary; wrapping the socket and the handshake succeed; and the
    successive writes take at least one byte each and eight bytes in
    all.  Then [_init_socket] returns and leaves the transport as it
    was; the socket is wrapped with the handshake done, has taken
    exactly [AMQP_PROTOCOL_HEADER] after what it had taken before, is in
    blocking mode with keep-alive on, carries the TCP options that
    [_set_socket_options] gives, and has each timeout that is not [None]
    as its send or receive timeout, the other one being as it was. *)
Theorem init_socket_sends_header (platform : gmap string Z)
    (TCP_NODELAY : Z) (peer : tls_peer) (self : transport)
    (d : list (string * pyobj)) (ss : option (gmap Z Z)) (rt wt : option Z)
    (sock : os_socket (option tls_session * out_socket))
    (counts : list nat) (rest : list write_result) :
  platform !! "TCP_NODELAY"%string = Some TCP_NODELAY ->
  (forall t, rt = Some t -> (- 2 ^ 63 <= t < 2 ^ 63)%Z) ->
  (forall t, wt = Some t -> (- 2 ^ 63 <= t < 2 ^ 63)%Z) ->
  sslopts self = Some d ->
  wrap_error peer = None -> handshake_error peer = None ->
  (forall x, dict_get "context" d = Some x ->
             truthy x = true -> is_dict x = true) ->
  Forall (fun n => 1 <= n) counts -> sum_list counts = 8 ->
  out_writes (so_layer sock).2 = map Wrote counts ++ rest ->
  exists session sock',
    _init_socket platform (ssl_setup_hook peer) ssl_write_hook self ss
      (option_map IntSeconds rt) (option_map IntSeconds wt) sock
    = Done tt self sock'
    /\ tls_handshake_done session = true
    /\ so_layer sock'
       = (Some session,
          mkOut (out_taken (so_layer sock).2 ++ AMQP_PROTOCOL_HEADER) rest)
    /\ so_timeout sock' = None /\ so_keepalive sock' = 1%Z
    /\ _AbstractTransport._set_socket_options platform ss (so_tcp sock)
       = Ok (so_tcp sock')
    /\ so_sndtimeo sock'
       = match wt with Some t => Some (t, 0%Z) | None => so_sndtimeo sock end
    /\ so_rcvtimeo sock'
       = match rt with Some t => Some (t, 0%Z) | None => so_rcvtimeo sock end.
Proof.
  intros Hnd Hrt Hwt Hs Hw Hh Hctx Hpos Hsum Hout.
  unfold _init_socket, init_socket_try. cbv zeta.
  destruct (set_socket_options_succeeds platform TCP_NODELAY ss
              (so_tcp sock) Hnd) as (tcp & Htcp).
  simpl. rewrite Htcp.
  rewrite (pack_timeout_int wt Hwt), (pack_timeout_int rt Hrt).
  simpl. unfold ssl_setup_hook. simpl.
  destruct (setup_with_sslopts self d peer (so_layer sock).1 Hs Hw Hh Hctx)
    as (session & -> & Hdone).
  simpl. unfold ssl_write_hook, SSLTransportIO._write. simpl.
  rewrite Hout, write_loop_chunks by done. simpl.
  exists session. eexists. split; [reflexivity|]. simpl.
  do 5 (split; [done|]). split; [by destruct wt|by destruct rt].
Qed.

Lemma init_socket_sends_header_witness :
  exists session sock',
    _init_socket linux_socket_module (ssl_setup_hook (mkPeer None None))
      ssl_write_hook
      (set_sslopts (Some []) (sample_transport cls_SSLTransport false []))
      None (Some (IntSeconds 5)) None
      (mkOS (Some 3%Z) 0%Z None None fresh_sockopts
         (None, mkOut [] [Wrote 5; Wrote 3; Wrote 0]))
    = Done tt
        (set_sslopts (Some []) (sample_transport cls_SSLTransport false []))
        sock'
    /\ tls_handshake_done session = true
    /\ so_layer sock'
       = (Some session, mkOut ([] ++ AMQP_PROTOCOL_HEADER) [Wrote 0])
    /\ so_timeout sock' = None /\ so_keepalive sock' = 1%Z
    /\ _AbstractTransport._set_socket_options linux_socket_module None
         fresh_sockopts
       = Ok (so_tcp sock')
    /\ so_sndtimeo sock' = None
    /\ so_rcvtimeo sock' = Some (5%Z, 0%Z).
Proof.
  apply (init_socket_sends_header linux_socket_module 1 (mkPeer None None)
           (set_sslopts (Some []) (sample_transport cls_SSLTransport false []))
           [] None (Some 5%Z) None
           (mkOS (Some 3%Z) 0%Z None None fresh_sockopts
              (None, mkOut [] [Wrote 5; Wrote 3; Wrote 0]))
           [5; 3] [Wrote 0]).
  - reflexivity.
  - intros t [= <-]. lia.
  - intros t. discriminate.
  - reflexivity.
  - reflexivity.
  - reflexivity.
  - intros x. discriminate.
  - repeat constructor; lia.
  - reflexivity.
  - reflexivity.
Defined.

(** X22.  A timeout given as a [float].  On a platform that has
    [socket.TCP_NODELAY], [_init_socket] with a read or a write timeout
    that is a [float] raises [struct.error] (Python 3), whatever the
    class of the transport: the transport is left as it was, [connected]
    too, [_setup_transport] and [_write] have not been called, so no
    byte of the protocol header is sent, and the receive timeout of the
    socket is as it was; the socket is in blocking mode with keep-alive
    on. *)
Theorem init_socket_float_timeout (L : Type) (platform : gmap string Z)
    (TCP_NODELAY : Z)
    (setup : transport -> L -> option exn * transport * L)
    (_write : bytes -> transport -> L -> effect L unit)
    (self : transport) (ss : option (gmap Z Z)) (rt wt : option seconds)
    (sock : os_socket L) (m e : Z) :
  platform !! "TCP_NODELAY"%string = Some TCP_NODELAY ->
  rt = Some (FloatSeconds m e) \/ wt = Some (FloatSeconds m e) ->
  exists sock',
    _init_socket platform setup _write self ss rt wt sock
    = Fails StructError self sock'
    /\ so_layer sock' = so_layer sock
    /\ so_rcvtimeo sock' = so_rcvtimeo sock
    /\ so_timeout sock' = None /\ so_keepalive sock' = 1%Z.
Proof.
  intros Hnd Hfloat. unfold _init_socket, init_socket_try. cbv zeta.
  destruct (set_socket_options_succeeds platform TCP_NODELAY ss
              (so_tcp sock) Hnd) as (tcp & Htcp).
  simpl. rewrite Htcp.
  assert (forall t, pack_timeout t = Error StructError
                    \/ exists packed, pack_timeout t = Ok packed) as Hpack.
  { intros [[t|]|]; simpl; [|by left|by right; eexists].
    destruct ((- 2 ^ 63 <=? t)%Z && (t <? 2 ^ 63)%Z);
      [by right; eexists|by left]. }
  destruct (Hpack wt) as [->|(snd & Hsnd)]; [by eexists|].
  rewrite Hsnd. simpl.
  destruct Hfloat as [->| ->]; [|done].
  simpl. by eexists.
Qed.

Lemma init_socket_float_timeout_witness :
  exists sock',
    _init_socket linux_socket_module (ssl_setup_hook (mkPeer None None))
      ssl_write_hook
      (set_sslopts (Some []) (sample_transport cls_SSLTransport false []))
      None (Some (FloatSeconds 1 (-1))) (Some (IntSeconds 5))
      (mkOS (Some 3%Z) 0%Z None None fresh_sockopts
         (None, mkOut [] [Wrote 8]))
    = Fails StructError
        (set_sslopts (Some []) (sample_transport cls_SSLTransport false []))
        sock'
    /\ so_layer sock' = (None, mkOut [] [Wrote 8])
    /\ so_rcvtimeo sock' = None
    /\ so_timeout sock' = None /\ so_keepalive sock' = 1%Z.
Proof.
  apply (init_socket_float_timeout _ linux_socket_module 1
           (ssl_setup_hook (mkPeer None None)) ssl_write_hook
           (set_sslopts (Some []) (sample_transport cls_SSLTransport false []))
           None (Some (FloatSeconds 1 (-1))) (Some (IntSeconds 5))
           (mkOS (Some 3%Z) 0%Z None None fresh_sockopts
              (None, mkOut [] [Wrote 8]))
           1 (-1)).
  - reflexivity.
  - left. reflexivity.
Defined.
